(** * Execution segments of k6 (lib/execution_segment.go)

    A shallow embedding of the [ExecutionSegment] type and of its
    operations, followed by the properties of its arithmetic.

    Go values are modelled as follows.
    - [*big.Rat] is a [Q] (numerator in [Z], positive denominator).  Every
      [big.Rat] operation normalises its result, which is written out
      here with [Qred]; comparisons ([Cmp]) are by value.
    - [*big.Int] is a [Z]; [int64] is a [Z] together with the range
      predicate [int64_range], and the conversion [Int64] wraps.
    - [*ExecutionSegment] is an [option ExecutionSegment]; [None] is the
      nil pointer.
    - a pair [(value, error)] is a [result]; errors built with
      [fmt.Errorf] are the constructors of [error], which keep the
      arguments of the message. *)

From Stdlib Require Import ZArith QArith Qround Qreduction Qcanon Lia Lqa Bool List.
From Stdlib Require Import Ascii String DecimalString DecimalZ DecimalPos DecimalN.
Import ListNotations.

Local Open Scope Z_scope.

(** ** math/big *)

Module big.

Definition Rat := Q.
Definition Int := Z.

(** [big.NewRat(a, 1)] *)
Definition NewRat1 (a : Z) : Rat := a # 1.

(** [x.Cmp(y)]: -1, 0 or +1 *)
Definition Cmp (x y : Rat) : Z :=
  match (x ?= y)%Q with
  | Lt => -1
  | Eq => 0
  | Gt => 1
  end.

(** [new(big.Rat).Add(x, y)], [Sub] and [Mul]: exact, normalised. *)
Definition Add (x y : Rat) : Rat := Qred (x + y).
Definition Sub (x y : Rat) : Rat := Qred (x - y).
Definition Mul (x y : Rat) : Rat := Qred (x * y).

(** [new(big.Rat).SetFrac(a, b)] for a positive [b]. *)
Definition SetFrac (a : Int) (b : positive) : Rat := Qred (a # b).

Definition Num (x : Rat) : Int := Qnum x.
Definition Denom (x : Rat) : Int := Z.pos (Qden x).

(** [x.Denom().Mul(x.Denom(), k)] for a positive [k]: the denominator
    is multiplied in place, the numerator is left alone and nothing
    is normalised. *)
Definition MulDenom (x : Rat) (k : positive) : Rat :=
  Qnum x # (Qden x * k).

(** [Int.QuoRem]: truncated (T-)division. *)
Definition QuoRem (x y : Int) : Int * Int := Z.quotrem x y.

(** [x.Int64()]: the low 64 bits, read as a signed integer. *)
Definition Int64 (x : Int) : Z :=
  (x + 2 ^ 63) mod 2 ^ 64 - 2 ^ 63.

End big.

Definition int64_range (v : Z) : Prop := - 2 ^ 63 <= v < 2 ^ 63.

(** ** The segment *)

Record ExecutionSegment : Type := mkSegment {
  (* 0 <= from < to <= 1 *)
  from : big.Rat;
  to : big.Rat;
  (* derived, equals to-from, but pre-calculated here for speed *)
  length : big.Rat
}.

Definition zeroRat : big.Rat := 0 # 1.
Definition oneRat : big.Rat := 1 # 1.
Definition oneBigInt : big.Int := 1.
Definition twoBigInt : big.Int := 2.

Inductive error : Type :=
| ErrStartNegative (from : big.Rat)
| ErrStartNotBeforeEnd (from to : big.Rat)
| ErrEndAboveOne (to : big.Rat)
| ErrNotPercentage (s : string)
| ErrNotValue (s : string)
| ErrNumParts (numParts : Z)
| ErrNotEqual (from to : big.Rat).

Inductive result (A : Type) : Type :=
| Ok (a : A)
| Err (e : error).
Arguments Ok {A} a.
Arguments Err {A} e.

Definition is_err {A : Type} (r : result A) : bool :=
  match r with
  | Ok _ => false
  | Err _ => true
  end.

(** [NewExecutionSegment] *)
Definition NewExecutionSegment (from to : big.Rat) : result ExecutionSegment :=
  if big.Cmp from zeroRat <? 0 then Err (ErrStartNegative from)
  else if big.Cmp from to >=? 0 then Err (ErrStartNotBeforeEnd from to)
  else if big.Cmp to oneRat >? 0 then Err (ErrEndAboveOne to)
  else Ok {| from := from; to := to; length := big.Sub to from |}.

(** [Split]: the loop, [k] iterations left, and the function. *)
Fixpoint Split_loop (k : nat) (from increment : big.Rat)
  : result (list ExecutionSegment * big.Rat) :=
  match k with
  | O => Ok ([], from)
  | S k' =>
      let segmentTo := big.Add from increment in
      match NewExecutionSegment from segmentTo with
      | Err e => Err e
      | Ok segment =>
          match Split_loop k' segmentTo increment with
          | Err e => Err e
          | Ok (results, last) => Ok (segment :: results, last)
          end
      end
  end.

Definition Split (es : option ExecutionSegment) (numParts : Z)
  : result (list ExecutionSegment) :=
  if numParts <? 1 then Err (ErrNumParts numParts)
  else
    let '(from0, to0) :=
      match es with
      | Some s => (from s, to s)
      | None => (zeroRat, oneRat)
      end in
    let increment := big.MulDenom (big.Sub to0 from0) (Z.to_pos numParts) in
    match Split_loop (Z.to_nat numParts) from0 increment with
    | Err e => Err e
    | Ok (results, last) =>
        if negb (big.Cmp last to0 =? 0) then Err (ErrNotEqual last to0)
        else Ok results
    end.

(** [Equal] *)
Definition Equal (es other : option ExecutionSegment) : bool :=
  let '(thisFrom, thisTo) :=
    match es with
    | Some s => (from s, to s)
    | None => (zeroRat, oneRat)
    end in
  let '(otherFrom, otherTo) :=
    match other with
    | Some s => (from s, to s)
    | None => (zeroRat, oneRat)
    end in
  (big.Cmp thisFrom otherFrom =? 0) && (big.Cmp thisTo otherTo =? 0).

(** [SubSegment] *)
Definition SubSegment (es child : option ExecutionSegment)
  : option ExecutionSegment :=
  match child with
  | None => es
  | Some c =>
      let '(parentFrom, parentLength) :=
        match es with
        | Some p => (from p, length p)
        | None => (zeroRat, oneRat)
        end in
      let resultFrom := big.Add (big.Mul parentLength (from c)) parentFrom in
      let resultLength := big.Mul parentLength (length c) in
      Some {| from := resultFrom;
              length := resultLength;
              to := big.Add resultFrom resultLength |}
  end.

(** [roundUp] *)
Definition roundUp (rat : big.Rat) : big.Int :=
  let '(quo, rem) := big.QuoRem (big.Num rat) (big.Denom rat) in
  if rem * twoBigInt >=? big.Denom rat then quo + oneBigInt else quo.

(** [Scale] *)
Definition Scale (es : option ExecutionSegment) (value : Z) : Z :=
  match es with
  | None => value
  | Some s =>
      let toValue := big.Mul (big.NewRat1 value) (to s) in
      let fromValue := big.Mul (big.NewRat1 value) (from s) in
      let toValue := big.Sub toValue (big.SetFrac (roundUp fromValue) 1) in
      big.Int64 (roundUp toValue)
  end.

(** [InPlaceScaleRat]: the first component is the content of the
    argument after the call, the second the returned rational (the same
    object). *)
Definition InPlaceScaleRat (es : option ExecutionSegment) (value : big.Rat)
  : big.Rat * big.Rat :=
  match es with
  | None => (value, value)
  | Some s => let v := big.Mul value (length s) in (v, v)
  end.

(** [CopyScaleRat]: the argument is left alone. *)
Definition CopyScaleRat (es : option ExecutionSegment) (value : big.Rat)
  : big.Rat :=
  match es with
  | None => value
  | Some s => big.Mul value (length s)
  end.

(** ** strings *)

Module strings.

Local Open Scope nat_scope.

(** [strings.HasSuffix]:
    [len(s) >= len(suffix) && s[len(s)-len(suffix):] == suffix] *)
Definition HasSuffix (s suffix : string) : bool :=
  (String.length suffix <=? String.length s) &&
  String.eqb
    (substring (String.length s - String.length suffix)
               (String.length suffix) s)
    suffix.

(** [strings.TrimSuffix] *)
Definition TrimSuffix (s suffix : string) : string :=
  if HasSuffix s suffix
  then substring 0 (String.length s - String.length suffix) s
  else s.

(** [strings.IndexByte]; [None] stands for -1. *)
Fixpoint IndexByte (s : string) (c : ascii) : option nat :=
  match s with
  | EmptyString => None
  | String a rest =>
      if Ascii.eqb a c then Some 0
      else match IndexByte rest c with
           | Some i => Some (S i)
           | None => None
           end
  end.

(** [strings.ContainsRune] for a rune below 0x80, which is a byte of
    the string wherever it occurs. *)
Definition ContainsRune (s : string) (r : ascii) : bool :=
  match IndexByte s r with
  | Some _ => true
  | None => false
  end.

(** [strings.SplitN(s, sep, 2)] for a one-byte separator: the text
    before the first separator and the text after it, or [s] alone. *)
Definition SplitN2 (s : string) (sep : ascii) : list string :=
  match IndexByte s sep with
  | Some i =>
      [substring 0 i s; substring (S i) (String.length s - S i) s]
  | None => [s]
  end.

End strings.

(** ** math/big: text

    [math/big] is not part of the repository.  The definitions below
    follow its documented behaviour on decimal text: an optional sign
    and decimal digits for [Int.SetString(s, 10)]; the empty string
    rejected, a fraction [a/b] with a signed numerator and an unsigned
    non-zero denominator, or a decimal number with an optional point for
    [Rat.SetString(s)].  Base prefixes, digit separators and exponents
    are outside the model and are rejected by it. *)

Module bigtext.

(** [scanSign]: an optional leading [+] or [-]. *)
Definition scanSign (s : string) : bool * string :=
  match s with
  | String "+" rest => (false, rest)
  | String "-" rest => (true, rest)
  | _ => (false, s)
  end.

(** One or more decimal digits, up to the end of the text. *)
Definition scanDigits (s : string) : option Z :=
  match s with
  | EmptyString => None
  | _ => option_map Z.of_uint (NilEmpty.uint_of_string s)
  end.

(** [new(big.Int).SetString(s, 10)] *)
Definition Int_SetString (s : string) : option big.Int :=
  let '(neg, rest) := scanSign s in
  match scanDigits rest with
  | Some n => Some (if neg then - n else n)
  | None => None
  end.

(** The decimal branch of [Rat.SetString]: sign, digits with at most
    one point, at least one digit. *)
Definition scanDecimal (s : string) : option big.Rat :=
  let '(neg, rest) := scanSign s in
  let '(ip, fp) :=
    match strings.IndexByte rest "." with
    | Some i =>
        (substring 0 i rest,
         substring (S i) (String.length rest - S i) rest)
    | None => (rest, EmptyString)
    end in
  match scanDigits (ip ++ fp) with
  | Some m =>
      let q := Qred (m # Z.to_pos (10 ^ Z.of_nat (String.length fp))) in
      Some (if neg then Qopp q else q)
  | None => None
  end.

(** [new(big.Rat).SetString(s)] *)
Definition Rat_SetString (s : string) : option big.Rat :=
  match s with
  | EmptyString => None
  | _ =>
      match strings.IndexByte s "/" with
      | Some sep =>
          match Int_SetString (substring 0 sep s),
                scanDigits (substring (S sep) (String.length s - S sep) s)
          with
          | Some a, Some (Z.pos b) => Some (Qred (a # b))
          | _, _ => None
          end
      | None => scanDecimal s
      end
  end.

(** [x.String()] of a [big.Int]: decimal, with [-] for a negative. *)
Definition Int_String (x : big.Int) : string :=
  NilZero.string_of_int (Z.to_int x).

(** [x.IsInt()] *)
Definition IsInt (x : big.Rat) : bool := (Qden x =? 1)%positive.

(** [x.RatString()]: [a/b], or [a] alone when the denominator is 1. *)
Definition RatString (x : big.Rat) : string :=
  if IsInt x then Int_String (big.Num x)
  else Int_String (big.Num x) ++ "/" ++ Int_String (big.Denom x).

End bigtext.

(** [stringToRat] *)
Definition stringToRat (s : string) : result big.Rat :=
  if strings.HasSuffix s "%" then
    match bigtext.Int_SetString (strings.TrimSuffix s "%") with
    | None => Err (ErrNotPercentage s)
    | Some num => Ok (big.SetFrac num 100)
    end
  else
    match bigtext.Rat_SetString s with
    | None => Err (ErrNotValue s)
    | Some rat => Ok rat
    end.

(** [UnmarshalText].  The receiver is passed in and out: the first
    component of the result is the content of [*es] after the call, the
    second is the returned error ([None] for nil). *)
Definition UnmarshalText (es : ExecutionSegment) (text : string)
  : ExecutionSegment * option error :=
  let from0 := zeroRat in
  let toStr := text in
  let parsedFrom : result (big.Rat * string) :=
    if strings.ContainsRune toStr ":" then
      let fromToStr := strings.SplitN2 toStr ":" in
      let toStr := nth 1 fromToStr EmptyString in
      match stringToRat (nth 0 fromToStr EmptyString) with
      | Err e => Err e
      | Ok from1 => Ok (from1, toStr)
      end
    else Ok (from0, toStr) in
  match parsedFrom with
  | Err e => (es, Some e)
  | Ok (from1, toStr) =>
      match stringToRat toStr with
      | Err e => (es, Some e)
      | Ok to1 =>
          match NewExecutionSegment from1 to1 with
          | Err e => (es, Some e)
          | Ok segment => (segment, None)
          end
      end
  end.

(** [String] *)
Definition String_ (es : option ExecutionSegment) : string :=
  match es with
  | None => "0:1"
  | Some s => bigtext.RatString (from s) ++ ":" ++ bigtext.RatString (to s)
  end.

(** [MarshalText]: [None] is the nil byte slice. *)
Definition MarshalText (es : option ExecutionSegment)
  : option string * option error :=
  match es with
  | None => (None, None)
  | Some _ => (Some (String_ es), None)
  end.

(** ** Invariants of the data model *)

(** [0 <= from < to <= 1] and [length = to - from], all by value. *)
Definition valid (s : ExecutionSegment) : Prop :=
  (0 <= from s)%Q /\ (from s < to s)%Q /\ (to s <= 1)%Q /\
  (length s == to s - from s)%Q.

(** A [big.Rat] in lowest terms, as every [big.Rat] operation leaves it. *)
Definition normalized (x : big.Rat) : Prop := Qred x = x.

Definition normalized_segment (s : ExecutionSegment) : Prop :=
  normalized (from s) /\ normalized (to s) /\ normalized (length s).

(** The segments of [l] are laid end to end from [a] to [b]: the first
    starts at [a], each one starts where the one before it ends, and
    the last ends at [b]. *)
Fixpoint covers (a : Q) (l : list ExecutionSegment) (b : Q) : Prop :=
  match l with
  | [] => (a == b)%Q
  | s :: rest => (from s == a)%Q /\ covers (to s) rest b
  end.

(** An exhaustive, non-overlapping partition of (0, 1]. *)
Definition partition (l : list ExecutionSegment) : Prop :=
  Forall valid l /\ covers 0 l 1.

Definition sumZ (l : list Z) : Z := fold_right Z.add 0 l.

(** Rounding as the specification words it: to the nearest integer, a
    tie going away from zero. *)
Definition round_half_away (q : Q) : Z :=
  if Qle_bool 0 q then Qfloor (q + (1 # 2)) else Qceiling (q - (1 # 2)).

(** The cumulative share of [value] up to the boundary [x], rounded to
    the nearest integer, a tie going up. *)
Definition boundary (value : Z) (x : Q) : Z :=
  Qfloor (inject_Z value * x + (1 # 2)).

(** The bounds an operation works with: those of the segment, or 0 and
    1 for the nil segment. *)
Definition from_of (es : option ExecutionSegment) : big.Rat :=
  match es with
  | Some s => from s
  | None => zeroRat
  end.

Definition to_of (es : option ExecutionSegment) : big.Rat :=
  match es with
  | Some s => to s
  | None => oneRat
  end.

Definition length_of (es : option ExecutionSegment) : big.Rat :=
  match es with
  | Some s => length s
  | None => oneRat
  end.

(** A segment pointer that is nil or points to a valid segment. *)
Definition valid_or_nil (es : option ExecutionSegment) : Prop :=
  match es with
  | Some s => valid s
  | None => True
  end.

(** Every byte of [s] passes the test [P]. *)
Fixpoint string_forall (P : ascii -> bool) (s : string) : bool :=
  match s with
  | EmptyString => true
  | String a rest => P a && string_forall P rest
  end.

Definition is_digit (c : ascii) : bool :=
  ((48 <=? nat_of_ascii c) && (nat_of_ascii c <=? 57))%nat.

(** The bytes [RatString] writes: digits, the sign and the bar. *)
Definition is_rat_char (c : ascii) : bool :=
  is_digit c || Ascii.eqb c "-" || Ascii.eqb c "/".

(** What the loop of [Split] leaves after [k] rounds from [f] with the
    step [inc]: [k] valid parts of length [inc], laid end to end from
    [f] to [last], which is [f + k * inc]. *)
Definition loop_post (k : nat) (f inc : Q)
           (parts : list ExecutionSegment) (last : Q) : Prop :=
  List.length parts = k /\
  (last == f + inject_Z (Z.of_nat k) * inc)%Q /\
  covers f parts last /\
  Forall valid parts /\
  Forall (fun p => (length p == inc)%Q) parts.

Definition sumQ (l : list Q) : Q := fold_right Qplus 0%Q l.

(** The cumulative share of a negative [value] up to the boundary [x],
    with its fractional part dropped. *)
Definition boundary_neg (value : Z) (x : Q) : Z :=
  Qceiling (inject_Z value * x).

(** The rounded cumulative share that [Scale] works with, for a value
    of either sign. *)
Definition share_boundary (value : Z) (x : Q) : Z :=
  if 0 <=? value then boundary value x else boundary_neg value x.

(** The errors of [NewExecutionSegment]. *)
Definition range_error (e : error) : Prop :=
  match e with
  | ErrStartNegative _ | ErrStartNotBeforeEnd _ _ | ErrEndAboveOne _ => True
  | _ => False
  end.

(** * Properties *)

(** ** Comparisons *)

Section Comparisons.

Local Open Scope Q_scope.

Ltac by_cases_on_compare x y :=
  destruct (x ?= y); cbn; split; intros H;
  try reflexivity; try discriminate; try (exfalso; apply H; reflexivity).

Lemma Cmp_neg_iff (x y : big.Rat) : (big.Cmp x y <? 0)%Z = true <-> x < y.
Proof.
  unfold big.Cmp. rewrite Qlt_alt. by_cases_on_compare x y.
Qed.

Lemma Cmp_nonneg_iff (x y : big.Rat) : (big.Cmp x y >=? 0)%Z = true <-> y <= x.
Proof.
  unfold big.Cmp. rewrite Qle_alt, <- (Qcompare_antisym x y). by_cases_on_compare x y.
Qed.

Lemma Cmp_pos_iff (x y : big.Rat) : (big.Cmp x y >? 0)%Z = true <-> y < x.
Proof.
  unfold big.Cmp. rewrite Qlt_alt, <- (Qcompare_antisym x y). by_cases_on_compare x y.
Qed.

Lemma Cmp_zero_iff (x y : big.Rat) : (big.Cmp x y =? 0)%Z = true <-> x == y.
Proof.
  unfold big.Cmp. rewrite Qeq_alt. by_cases_on_compare x y.
Qed.

Lemma NewExecutionSegment_ok (f t : big.Rat) :
  0 <= f -> f < t -> t <= 1 ->
  NewExecutionSegment f t = Ok (mkSegment f t (big.Sub t f)).
Proof.
  intros Hf Hft Ht. unfold NewExecutionSegment.
  destruct (big.Cmp f zeroRat <? 0)%Z eqn:E1.
  { apply Cmp_neg_iff in E1. unfold zeroRat in E1.
    exfalso. apply (Qlt_not_le _ _ E1). exact Hf. }
  destruct (big.Cmp f t >=? 0)%Z eqn:E2.
  { apply Cmp_nonneg_iff in E2. exfalso. apply (Qlt_not_le _ _ Hft E2). }
  destruct (big.Cmp t oneRat >? 0)%Z eqn:E3.
  { apply Cmp_pos_iff in E3. exfalso. apply (Qlt_not_le _ _ E3). exact Ht. }
  reflexivity.
Qed.

Lemma NewExecutionSegment_inv (f t : big.Rat) (s : ExecutionSegment) :
  NewExecutionSegment f t = Ok s ->
  0 <= f /\ f < t /\ t <= 1 /\ s = mkSegment f t (big.Sub t f).
Proof.
  unfold NewExecutionSegment.
  destruct (big.Cmp f zeroRat <? 0)%Z eqn:E1; [discriminate|].
  destruct (big.Cmp f t >=? 0)%Z eqn:E2; [discriminate|].
  destruct (big.Cmp t oneRat >? 0)%Z eqn:E3; [discriminate|].
  intros H. injection H as <-.
  repeat split.
  - apply Qnot_lt_le. intros H. apply (Cmp_neg_iff f zeroRat) in H. congruence.
  - apply Qnot_le_lt. intros H. apply Cmp_nonneg_iff in H. congruence.
  - apply Qnot_lt_le. intros H. apply (Cmp_pos_iff t oneRat) in H. congruence.
Qed.

Lemma NewExecutionSegment_err (f t : big.Rat) :
  is_err (NewExecutionSegment f t) = true <-> f < 0 \/ t <= f \/ 1 < t.
Proof.
  unfold NewExecutionSegment.
  destruct (big.Cmp f zeroRat <? 0)%Z eqn:E1.
  { apply Cmp_neg_iff in E1. simpl. split; auto. }
  destruct (big.Cmp f t >=? 0)%Z eqn:E2.
  { apply Cmp_nonneg_iff in E2. simpl. split; auto. }
  destruct (big.Cmp t oneRat >? 0)%Z eqn:E3.
  { apply Cmp_pos_iff in E3. simpl. split; auto. }
  simpl. split; [discriminate|].
  intros [H | [H | H]].
  - apply (Cmp_neg_iff f zeroRat) in H. congruence.
  - apply Cmp_nonneg_iff in H. congruence.
  - apply (Cmp_pos_iff t oneRat) in H. congruence.
Qed.

End Comparisons.

(** C3. [NewExecutionSegment(from, to)] fails exactly when [from < 0],
    [from >= to] or [to > 1]; when it succeeds the segment has the given
    [from] and [to], and its [length] is [to - from], exactly. *)
Theorem NewExecutionSegment_spec (f t : big.Rat) :
  (is_err (NewExecutionSegment f t) = true <->
   (f < 0 \/ t <= f \/ 1 < t)%Q) /\
  match NewExecutionSegment f t with
  | Ok s =>
      from s = f /\ to s = t /\ length s = big.Sub t f /\
      (length s == t - f)%Q
  | Err _ => True
  end.
Proof.
  split; [apply NewExecutionSegment_err|].
  destruct (NewExecutionSegment f t) as [s|e] eqn:E; [|exact I].
  apply NewExecutionSegment_inv in E. destruct E as (_ & _ & _ & ->).
  simpl. repeat split. apply Qred_correct.
Qed.

(** ** Rounding *)

Section Rounding.

Local Open Scope Q_scope.

(** The integer [k] with [k <= q < k + 1] is the floor of [q]. *)
Lemma Qfloor_unique (q : Q) (k : Z) :
  inject_Z k <= q -> q < inject_Z (k + 1) -> Qfloor q = k.
Proof.
  intros Hlo Hhi.
  pose proof (Qfloor_le q) as Hf. pose proof (Qlt_floor q) as Hg.
  assert (H1 : (k < Qfloor q + 1)%Z).
  { rewrite Zlt_Qlt. eapply Qle_lt_trans; eassumption. }
  assert (H2 : (Qfloor q < k + 1)%Z).
  { rewrite Zlt_Qlt. eapply Qle_lt_trans; eassumption. }
  lia.
Qed.

Lemma Qfloor_sub_Z (q : Q) (k : Z) :
  Qfloor (q - inject_Z k) = (Qfloor q - k)%Z.
Proof.
  apply Qfloor_unique.
  - pose proof (Qfloor_le q). unfold Z.sub. rewrite inject_Z_plus, inject_Z_opp. lra.
  - pose proof (Qlt_floor q) as H.
    replace (Qfloor q - k + 1)%Z with ((Qfloor q + 1) + - k)%Z by lia.
    rewrite inject_Z_plus, inject_Z_opp. lra.
Qed.

(** What [roundUp] computes, on the numerator and the denominator. *)
Lemma roundUp_nonneg (n : Z) (d : positive) :
  (0 <= n)%Z -> roundUp (n # d) = ((2 * n + Z.pos d) / (2 * Z.pos d))%Z.
Proof.
  intros Hn. unfold roundUp, big.QuoRem, big.Num, big.Denom, twoBigInt, oneBigInt.
  cbn [Qnum Qden].
  pose proof (Z.quotrem_eq n (Z.pos d)) as E.
  pose proof (Z.rem_bound_pos n (Z.pos d) Hn (Pos2Z.is_pos d)) as B.
  assert (R : Z.rem n (Z.pos d) = snd (Z.quotrem n (Z.pos d))) by reflexivity.
  destruct (Z.quotrem n (Z.pos d)) as [quo rem]. cbn [snd] in R. subst rem.
  set (r := Z.rem n (Z.pos d)) in *.
  destruct (r * 2 >=? Z.pos d)%Z eqn:C.
  - apply Z.geb_le in C.
    apply Z.div_unique with (r := (2 * r - Z.pos d)%Z); lia.
  - rewrite Z.geb_leb in C. apply Z.leb_gt in C.
    apply Z.div_unique with (r := (2 * r + Z.pos d)%Z); lia.
Qed.

Lemma roundUp_neg (n : Z) (d : positive) :
  (n < 0)%Z -> roundUp (n # d) = (n ÷ Z.pos d)%Z.
Proof.
  intros Hn. unfold roundUp, big.QuoRem, big.Num, big.Denom, twoBigInt.
  cbn [Qnum Qden].
  assert (Q' : Z.quot n (Z.pos d) = fst (Z.quotrem n (Z.pos d))) by reflexivity.
  assert (R : Z.rem n (Z.pos d) = snd (Z.quotrem n (Z.pos d))) by reflexivity.
  assert (B : (Z.rem n (Z.pos d) <= 0)%Z).
  { apply Z.rem_nonpos; lia. }
  destruct (Z.quotrem n (Z.pos d)) as [quo rem]. cbn [fst snd] in *. subst.
  destruct (Z.rem n (Z.pos d) * 2 >=? Z.pos d)%Z eqn:C; [|reflexivity].
  apply Z.geb_le in C. lia.
Qed.

(** From -1/2 upwards [roundUp] rounds to the nearest integer, a tie
    going up. *)
Lemma roundUp_floor (q : Q) :
  - (1 # 2) <= q -> roundUp q = Qfloor (q + (1 # 2)).
Proof.
  destruct q as [n d]. unfold Qle. cbn [Qnum Qden Qopp]. intros H.
  assert (F : Qfloor ((n # d) + (1 # 2)) = ((2 * n + Z.pos d) / (2 * Z.pos d))%Z).
  { unfold Qfloor, Qplus. cbn [Qnum Qden].
    f_equal; lia. }
  rewrite F.
  destruct (Z_lt_le_dec n 0) as [Hn | Hn].
  - rewrite roundUp_neg by exact Hn.
    rewrite Z.div_small by lia.
    replace n with (- (- n))%Z by lia.
    rewrite Z.quot_opp_l by lia.
    rewrite Z.quot_small by lia. reflexivity.
  - apply roundUp_nonneg. exact Hn.
Qed.

(** Below zero [roundUp] drops the fractional part. *)
Lemma roundUp_ceiling (q : Q) : q < 0 -> roundUp q = Qceiling q.
Proof.
  destruct q as [n d]. unfold Qlt. cbn [Qnum Qden]. intros H.
  rewrite roundUp_neg by lia.
  unfold Qceiling, Qfloor, Qopp. cbn [Qnum Qden].
  rewrite Z.quot_div by lia.
  rewrite Z.sgn_neg by lia. rewrite Z.sgn_pos by lia.
  rewrite Z.abs_neq by lia. rewrite Z.abs_eq by lia. lia.
Qed.

Lemma boundary_comp (value : Z) (x y : Q) :
  x == y -> boundary value x = boundary value y.
Proof. intros E. unfold boundary. apply Qfloor_comp. rewrite E. reflexivity. Qed.

Lemma boundary_0 (value : Z) : boundary value 0 = 0%Z.
Proof.
  unfold boundary. apply Qfloor_unique.
  - change (inject_Z 0) with 0. lra.
  - change (inject_Z (0 + 1)) with 1. lra.
Qed.

Lemma boundary_1 (value : Z) : boundary value 1 = value.
Proof.
  unfold boundary. apply Qfloor_unique.
  - lra.
  - rewrite inject_Z_plus. change (inject_Z 1) with 1. lra.
Qed.

Lemma boundary_mono (value : Z) (x y : Q) :
  (0 <= value)%Z -> x <= y -> (boundary value x <= boundary value y)%Z.
Proof.
  intros Hv Hxy. unfold boundary. apply Qfloor_resp_le.
  apply Qplus_le_l. rewrite !(Qmult_comm (inject_Z value)).
  apply Qmult_le_compat_r; [exact Hxy|].
  rewrite Zle_Qle in Hv. exact Hv.
Qed.

Lemma Int64_small (x : Z) : int64_range x -> big.Int64 x = x.
Proof.
  unfold int64_range, big.Int64. intros H.
  rewrite Z.mod_small; lia.
Qed.

(** [round_half_away] is what its name says: it is odd, it stays
    within 1/2 of its argument, and a tie above zero goes up. *)
Lemma round_half_away_opp (q : Q) :
  round_half_away (- q) = (- round_half_away q)%Z.
Proof.
  unfold round_half_away, Qceiling.
  destruct (Qle_bool 0 q) eqn:E1; destruct (Qle_bool 0 (- q)) eqn:E2.
  - apply Qle_bool_iff in E1. apply Qle_bool_iff in E2.
    assert (E : q == 0) by lra.
    rewrite (Qfloor_comp (- q + (1 # 2)) (1 # 2)) by (rewrite E; ring).
    rewrite (Qfloor_comp (q + (1 # 2)) (1 # 2)) by (rewrite E; ring).
    reflexivity.
  - f_equal. apply Qfloor_comp. ring.
  - rewrite Z.opp_involutive. apply Qfloor_comp. ring.
  - exfalso.
    assert (H1 : ~ 0 <= q) by (intros C; apply Qle_bool_iff in C; congruence).
    assert (H2 : ~ 0 <= - q) by (intros C; apply Qle_bool_iff in C; congruence).
    apply Qnot_le_lt in H1. apply Qnot_le_lt in H2. lra.
Qed.

Lemma round_half_away_nearest (q : Q) :
  q - (1 # 2) <= inject_Z (round_half_away q) <= q + (1 # 2).
Proof.
  unfold round_half_away. destruct (Qle_bool 0 q).
  - pose proof (Qfloor_le (q + (1 # 2))) as A.
    pose proof (Qlt_floor (q + (1 # 2))) as B.
    rewrite inject_Z_plus in B. change (inject_Z 1) with 1 in B. lra.
  - pose proof (Qle_ceiling (q - (1 # 2))) as A.
    pose proof (Qceiling_lt (q - (1 # 2))) as B.
    unfold Z.sub in B. rewrite inject_Z_plus in B.
    change (inject_Z (- (1))) with (- (1)) in B. lra.
Qed.

Lemma round_half_away_tie (k : Z) :
  (0 <= k)%Z -> round_half_away (inject_Z k + (1 # 2)) = (k + 1)%Z.
Proof.
  intros Hk. unfold round_half_away.
  assert (H : 0 <= inject_Z k + (1 # 2)).
  { rewrite Zle_Qle in Hk. change (inject_Z 0) with 0 in Hk. lra. }
  apply Qle_bool_iff in H. rewrite H.
  apply Qfloor_unique.
  - rewrite inject_Z_plus. change (inject_Z 1) with 1. lra.
  - rewrite !inject_Z_plus. change (inject_Z 1) with 1. lra.
Qed.

End Rounding.

(** ** Scale *)

Section Scaling.

Local Open Scope Q_scope.

Variable s : ExecutionSegment.
Variable value : Z.
Hypothesis Hvalid : valid s.
Hypothesis Hrange : int64_range value.
Hypothesis Hvalue : (0 <= value)%Z.

Let v_nonneg : 0 <= inject_Z value.
Proof. change 0 with (inject_Z 0). rewrite <- Zle_Qle. exact Hvalue. Qed.

Lemma scaled_from_nonneg : 0 <= inject_Z value * from s.
Proof. destruct Hvalid as (H0 & _). apply Qmult_le_0_compat; assumption. Qed.

Lemma scaled_from_le_to : inject_Z value * from s <= inject_Z value * to s.
Proof.
  destruct Hvalid as (_ & Hlt & _).
  rewrite !(Qmult_comm (inject_Z value)).
  apply Qmult_le_compat_r; [apply Qlt_le_weak; exact Hlt | exact v_nonneg].
Qed.

Lemma roundUp_fromValue :
  roundUp (big.Mul (big.NewRat1 value) (from s)) = boundary value (from s).
Proof.
  unfold big.Mul, big.NewRat1. fold (inject_Z value).
  pose proof scaled_from_nonneg as H.
  rewrite roundUp_floor by (rewrite Qred_correct; lra).
  unfold boundary. apply Qfloor_comp. rewrite Qred_correct. reflexivity.
Qed.

(** What is left of [toValue] once the rounded [fromValue] is taken
    off stays above -1/2. *)
Lemma remainder_above_minus_half :
  - (1 # 2) <
  inject_Z value * to s - inject_Z (boundary value (from s)) \/
  (value = 0%Z /\ boundary value (from s) = 0%Z).
Proof.
  destruct (Z.eq_dec value 0) as [-> | Hnz].
  - right. split; [reflexivity|].
    unfold boundary. apply Qfloor_unique.
    + change (inject_Z 0) with 0. lra.
    + change (inject_Z (0 + 1)) with 1. change (inject_Z 0) with 0. lra.
  - left.
    assert (Hpos : 0 < inject_Z value).
    { change 0 with (inject_Z 0). rewrite <- Zlt_Qlt. lia. }
    destruct Hvalid as (_ & Hlt & _).
    pose proof (proj2 (Qmult_lt_l (from s) (to s) (inject_Z value) Hpos) Hlt).
    pose proof (Qfloor_le (inject_Z value * from s + (1 # 2))).
    unfold boundary. lra.
Qed.

Lemma remainder_ge_minus_half :
  - (1 # 2) <=
  inject_Z value * to s - inject_Z (boundary value (from s)).
Proof.
  destruct remainder_above_minus_half as [H | [-> ->]].
  - lra.
  - change (inject_Z 0) with 0. lra.
Qed.

Lemma toValue_eq :
  big.Sub (big.Mul (big.NewRat1 value) (to s))
          (big.SetFrac (boundary value (from s)) 1)
  == inject_Z value * to s - inject_Z (boundary value (from s)).
Proof.
  unfold big.Sub, big.Mul, big.SetFrac, big.NewRat1.
  fold (inject_Z value). fold (inject_Z (boundary value (from s))).
  rewrite !Qred_correct. reflexivity.
Qed.

Lemma roundUp_toValue :
  roundUp (big.Sub (big.Mul (big.NewRat1 value) (to s))
                   (big.SetFrac (boundary value (from s)) 1))
  = (boundary value (to s) - boundary value (from s))%Z.
Proof.
  pose proof remainder_ge_minus_half as H.
  rewrite roundUp_floor by (rewrite toValue_eq; exact H).
  change (boundary value (to s))
    with (Qfloor (inject_Z value * to s + (1 # 2))).
  rewrite <- Qfloor_sub_Z. apply Qfloor_comp.
  rewrite toValue_eq. ring.
Qed.

(** The share of a segment is the difference of its two rounded
    boundaries. *)
Lemma Scale_boundary :
  Scale (Some s) value =
  (boundary value (to s) - boundary value (from s))%Z.
Proof.
  unfold Scale. rewrite roundUp_fromValue, roundUp_toValue.
  apply Int64_small.
  destruct Hvalid as (H0 & Hlt & H1 & _).
  pose proof (boundary_mono value _ _ Hvalue H0) as A.
  pose proof (boundary_mono value _ _ Hvalue (Qlt_le_weak _ _ Hlt)) as B.
  pose proof (boundary_mono value _ _ Hvalue H1) as C.
  rewrite boundary_0 in A. rewrite boundary_1 in C.
  unfold int64_range in *. lia.
Qed.

Lemma round_half_away_nonneg (q : Q) :
  0 <= q -> round_half_away q = Qfloor (q + (1 # 2)).
Proof.
  intros H. unfold round_half_away.
  apply Qle_bool_iff in H. rewrite H. reflexivity.
Qed.

Lemma round_half_away_small (q : Q) :
  - (1 # 2) < q -> round_half_away q = Qfloor (q + (1 # 2)).
Proof.
  intros H. unfold round_half_away.
  destruct (Qle_bool 0 q) eqn:E; [reflexivity|].
  assert (Hq : q < 0).
  { apply Qnot_le_lt. intros C. apply Qle_bool_iff in C. congruence. }
  transitivity 0%Z.
  - unfold Qceiling.
    rewrite (Qfloor_unique (- (q - (1 # 2))) 0); [reflexivity| |].
    + change (inject_Z 0) with 0. lra.
    + change (inject_Z (0 + 1)) with 1. lra.
  - symmetry. apply Qfloor_unique.
    + change (inject_Z 0) with 0. lra.
    + change (inject_Z (0 + 1)) with 1. lra.
Qed.

Lemma Scale_round_half_away :
  Scale (Some s) value =
  round_half_away
    (inject_Z value * to s
     - inject_Z (round_half_away (inject_Z value * from s))).
Proof.
  rewrite Scale_boundary.
  rewrite (round_half_away_nonneg _ scaled_from_nonneg).
  fold (boundary value (from s)).
  destruct remainder_above_minus_half as [H | [E0 E1]].
  - rewrite (round_half_away_small _ H).
    change (boundary value (to s))
      with (Qfloor (inject_Z value * to s + (1 # 2))).
    rewrite <- Qfloor_sub_Z. apply Qfloor_comp. ring.
  - rewrite E1. rewrite round_half_away_nonneg.
    + change (boundary value (to s))
        with (Qfloor (inject_Z value * to s + (1 # 2))).
      rewrite <- Qfloor_sub_Z. apply Qfloor_comp. ring.
    + rewrite E0. change (inject_Z 0) with 0. lra.
Qed.

End Scaling.

(** C2, as amended.  For every valid segment and every int64 [value]
    that is not negative, [Scale] returns
    [round(value * to - round(value * from))], where [round] goes to the
    nearest integer and a tie goes away from zero. *)
Theorem Scale_rounds_nonneg (s : ExecutionSegment) (value : Z) :
  valid s -> int64_range value -> 0 <= value ->
  Scale (Some s) value =
  round_half_away
    (inject_Z value * to s
     - inject_Z (round_half_away (inject_Z value * from s)))%Q.
Proof.
  intros Hs Hr Hv. apply Scale_round_half_away; assumption.
Qed.

Lemma Scale_rounds_nonneg_witness :
  Scale (Some (mkSegment (1 # 3) (2 # 3) (1 # 3))) 10 =
  round_half_away
    (inject_Z 10 * (2 # 3)
     - inject_Z (round_half_away (inject_Z 10 * (1 # 3))))%Q.
Proof.
  apply (Scale_rounds_nonneg (mkSegment (1 # 3) (2 # 3) (1 # 3)) 10).
  - unfold valid, Qle, Qlt, Qeq. simpl. lia.
  - unfold int64_range. lia.
  - lia.
Defined.

(** C2, as stated, fails on a negative value: on the segment (0, 1/4]
    the value -7 has the exact share -7/4, whose nearest integer is -2,
    and [Scale] returns -1. *)
Lemma Scale_negative_not_nearest :
  valid (mkSegment (0 # 1) (1 # 4) (1 # 4)) /\
  int64_range (-7) /\
  Scale (Some (mkSegment (0 # 1) (1 # 4) (1 # 4))) (-7) = -1 /\
  round_half_away
    (inject_Z (-7) * (1 # 4)
     - inject_Z (round_half_away (inject_Z (-7) * (0 # 1))))%Q = -2 /\
  Scale (Some (mkSegment (0 # 1) (1 # 4) (1 # 4))) (-7) <>
  round_half_away
    (inject_Z (-7) * (1 # 4)
     - inject_Z (round_half_away (inject_Z (-7) * (0 # 1))))%Q.
Proof.
  split; [|split; [|split; [|split]]].
  - unfold valid, Qle, Qlt, Qeq. simpl. lia.
  - unfold int64_range. lia.
  - reflexivity.
  - reflexivity.
  - discriminate.
Qed.

Lemma covers_sum (value : Z) (l : list ExecutionSegment) :
  int64_range value -> 0 <= value ->
  forall a b : Q,
    Forall valid l -> covers a l b ->
    sumZ (map (fun s => Scale (Some s) value) l) =
    boundary value b - boundary value a.
Proof.
  intros Hr Hv. induction l as [|s rest IH]; intros a b Hall Hcov.
  - simpl in *. rewrite (boundary_comp value a b Hcov). lia.
  - inversion Hall as [|? ? Hs Hrest]; subst.
    destruct Hcov as [Hfrom Hcov].
    change (Scale (Some s) value
            + sumZ (map (fun s => Scale (Some s) value) rest)
            = boundary value b - boundary value a).
    rewrite (IH (to s) b Hrest Hcov).
    rewrite (Scale_boundary s value Hs Hr Hv).
    rewrite (boundary_comp value (from s) a Hfrom). lia.
Qed.

(** C1. For every [value >= 0] and every partition of (0, 1] into valid
    consecutive segments, the shares [Scale(s_i, value)] add up to
    [value]. *)
Theorem Scale_conservation (value : Z) (l : list ExecutionSegment) :
  int64_range value -> 0 <= value -> partition l ->
  sumZ (map (fun s => Scale (Some s) value) l) = value.
Proof.
  intros Hr Hv [Hall Hcov].
  rewrite (covers_sum value l Hr Hv 0%Q 1%Q Hall Hcov).
  rewrite boundary_0, boundary_1. lia.
Qed.

Lemma Scale_conservation_witness :
  sumZ (map (fun s => Scale (Some s) 10)
            [mkSegment (0 # 1) (1 # 3) (1 # 3);
             mkSegment (1 # 3) (2 # 3) (1 # 3);
             mkSegment (2 # 3) (1 # 1) (1 # 3)]) = 10.
Proof.
  apply (Scale_conservation 10).
  - unfold int64_range. lia.
  - lia.
  - split.
    + repeat constructor; unfold Qle, Qlt, Qeq; simpl; lia.
    + simpl. unfold Qeq. simpl. lia.
Defined.

(** C9. The absent segment scales nothing: [Scale] returns the value,
    and both [InPlaceScaleRat] and [CopyScaleRat] return the rational
    they were given, which [InPlaceScaleRat] also leaves as it was. *)
Theorem absent_segment_identity :
  (forall value : Z, Scale None value = value) /\
  (forall r : big.Rat, InPlaceScaleRat None r = (r, r)) /\
  (forall r : big.Rat, CopyScaleRat None r = r).
Proof.
  repeat split.
Qed.

(** ** SubSegment *)

Section SubSegments.

Local Open Scope Q_scope.

Lemma SubSegment_some (parent : option ExecutionSegment) (c : ExecutionSegment) :
  SubSegment parent (Some c) =
  Some
    (let resultFrom :=
       big.Add (big.Mul (length_of parent) (from c)) (from_of parent) in
     let resultLength := big.Mul (length_of parent) (length c) in
     mkSegment resultFrom (big.Add resultFrom resultLength) resultLength).
Proof. destruct parent; reflexivity. Qed.

Lemma from_length_of_valid (parent : option ExecutionSegment) :
  valid_or_nil parent ->
  0 <= from_of parent /\ 0 < length_of parent /\
  from_of parent + length_of parent <= 1.
Proof.
  destruct parent as [p|]; simpl.
  - intros (H0 & Hlt & H1 & Hlen). rewrite Hlen. repeat split; lra.
  - intros _. unfold zeroRat, oneRat. repeat split; lra.
Qed.

Lemma SubSegment_valid (parent : option ExecutionSegment) (c r : ExecutionSegment) :
  valid_or_nil parent -> valid c ->
  SubSegment parent (Some c) = Some r -> valid r.
Proof.
  intros Hp (C0 & Clt & C1 & Clen) E.
  rewrite SubSegment_some in E. injection E as <-.
  apply from_length_of_valid in Hp. destruct Hp as (P0 & Plen & P1).
  set (pf := from_of parent) in *. set (pl := length_of parent) in *.
  unfold valid. cbn [from to length]. unfold big.Add, big.Mul.
  rewrite !Qred_correct.
  assert (A : 0 <= pl * from c) by (apply Qmult_le_0_compat; lra).
  assert (B : 0 < pl * length c).
  { apply Qmult_lt_0_compat; [exact Plen | rewrite Clen; lra]. }
  assert (C : pl * (from c + length c) <= pl * 1).
  { rewrite !(Qmult_comm pl). apply Qmult_le_compat_r; [rewrite Clen|]; lra. }
  repeat split; lra.
Qed.

End SubSegments.

(** C6. With a nil child [SubSegment] returns the parent as it is.  With
    a child it returns the segment whose [from] is
    [parent.from + parent.length * child.from], whose [length] is
    [parent.length * child.length] and whose [to] is [from + length], the
    nil parent counting as (0, 1]; all three are exact.  The sub-segment
    (0, 1/2] of (1/2, 1] is (1/2, 3/4]. *)
Theorem SubSegment_formula :
  (forall parent : option ExecutionSegment, SubSegment parent None = parent) /\
  (forall (parent : option ExecutionSegment) (child : ExecutionSegment),
      match SubSegment parent (Some child) with
      | Some r =>
          (from r == from_of parent + length_of parent * from child)%Q /\
          (length r == length_of parent * length child)%Q /\
          (to r == from r + length r)%Q
      | None => False
      end) /\
  SubSegment (Some (mkSegment (1 # 2) (1 # 1) (1 # 2)))
             (Some (mkSegment (0 # 1) (1 # 2) (1 # 2)))
  = Some (mkSegment (1 # 2) (3 # 4) (1 # 4)).
Proof.
  split; [|split].
  - reflexivity.
  - intros parent child. rewrite SubSegment_some. cbn [from to length].
    unfold big.Add, big.Mul. rewrite !Qred_correct.
    repeat split; ring.
  - reflexivity.
Qed.

(** ** Split *)

Section Splitting.

Local Open Scope Q_scope.

Lemma MulDenom_value (x : big.Rat) (k : positive) :
  big.MulDenom x k == x / inject_Z (Z.pos k).
Proof.
  destruct x as [n d]. unfold big.MulDenom, Qdiv, Qinv, Qmult, Qeq, inject_Z.
  cbn [Qnum Qden]. rewrite !Pos2Z.inj_mul. ring.
Qed.

Lemma inject_Z_succ (k : nat) :
  inject_Z (Z.of_nat (S k)) == inject_Z (Z.of_nat k) + 1.
Proof.
  rewrite Nat2Z.inj_succ. unfold Z.succ. rewrite inject_Z_plus. reflexivity.
Qed.

Lemma inject_Z_nat_nonneg (k : nat) : 0 <= inject_Z (Z.of_nat k).
Proof. change 0 with (inject_Z 0). rewrite <- Zle_Qle. lia. Qed.

Lemma Split_loop_ok (k : nat) :
  forall f inc : Q,
    0 < inc -> 0 <= f -> f + inject_Z (Z.of_nat k) * inc <= 1 ->
    exists parts last,
      Split_loop k f inc = Ok (parts, last) /\ loop_post k f inc parts last.
Proof.
  induction k as [|k IH]; intros f inc Hinc Hf Hend.
  - exists [], f. split; [reflexivity|].
    unfold loop_post. cbn [List.length covers Z.of_nat].
    change (inject_Z 0) with 0.
    repeat split; try constructor; try reflexivity. ring.
  - rewrite inject_Z_succ in Hend.
    pose proof (inject_Z_nat_nonneg k) as Hk.
    assert (Hprod : 0 <= inject_Z (Z.of_nat k) * inc).
    { apply Qmult_le_0_compat; lra. }
    assert (Hto : big.Add f inc == f + inc) by apply Qred_correct.
    destruct (IH (big.Add f inc) inc Hinc) as (parts & last & E & P).
    { rewrite Hto. lra. }
    { rewrite Hto. lra. }
    destruct P as (Plen & Plast & Pcov & Pval & Pinc).
    exists (mkSegment f (big.Add f inc) (big.Sub (big.Add f inc) f) :: parts), last.
    split.
    + cbn [Split_loop].
      rewrite NewExecutionSegment_ok; [| exact Hf | rewrite Hto; lra | rewrite Hto; lra].
      rewrite E. reflexivity.
    + unfold loop_post. cbn [List.length covers from to].
      assert (Hlen : big.Sub (big.Add f inc) f == inc).
      { unfold big.Sub. rewrite Qred_correct, Hto. ring. }
      repeat split.
      * f_equal. exact Plen.
      * rewrite Plast, Hto, inject_Z_succ. ring.
      * exact Pcov.
      * constructor; [|exact Pval].
        unfold valid. cbn [from to length].
        unfold big.Sub. rewrite Qred_correct, Hto. repeat split; lra.
      * constructor; [exact Hlen | exact Pinc].
Qed.

Lemma covers_comp (l : list ExecutionSegment) :
  forall a b b' : Q, b == b' -> covers a l b -> covers a l b'.
Proof.
  induction l as [|s rest IH]; intros a b b' E; cbn [covers].
  - intros H. rewrite H. exact E.
  - intros [H1 H2]. split; [exact H1 | exact (IH _ _ _ E H2)].
Qed.

Lemma bounds_of_valid (es : option ExecutionSegment) :
  valid_or_nil es -> 0 <= from_of es /\ from_of es < to_of es /\ to_of es <= 1.
Proof.
  destruct es as [s|]; simpl.
  - intros (H0 & Hlt & H1 & _). auto.
  - intros _. unfold zeroRat, oneRat. repeat split; lra.
Qed.

Lemma Split_unfold (es : option ExecutionSegment) (numParts : Z) :
  Split es numParts =
  if (numParts <? 1)%Z then Err (ErrNumParts numParts)
  else
    match Split_loop (Z.to_nat numParts) (from_of es)
            (big.MulDenom (big.Sub (to_of es) (from_of es)) (Z.to_pos numParts))
    with
    | Err e => Err e
    | Ok (results, last) =>
        if negb (big.Cmp last (to_of es) =? 0)%Z
        then Err (ErrNotEqual last (to_of es))
        else Ok results
    end.
Proof. destruct es; reflexivity. Qed.

Lemma Split_ok (es : option ExecutionSegment) (numParts : Z) :
  valid_or_nil es -> (1 <= numParts)%Z ->
  exists parts,
    Split es numParts = Ok parts /\
    List.length parts = Z.to_nat numParts /\
    covers (from_of es) parts (to_of es) /\
    Forall valid parts /\
    Forall (fun p => length p == (to_of es - from_of es) / inject_Z numParts)
           parts.
Proof.
  intros Hes Hn. apply bounds_of_valid in Hes. destruct Hes as (H0 & Hlt & H1).
  rewrite Split_unfold.
  destruct (numParts <? 1)%Z eqn:E; [apply Z.ltb_lt in E; lia|].
  set (f0 := from_of es) in *. set (t0 := to_of es) in *.
  set (inc := big.MulDenom (big.Sub t0 f0) (Z.to_pos numParts)).
  assert (Hnat : inject_Z (Z.of_nat (Z.to_nat numParts)) = inject_Z numParts).
  { rewrite Z2Nat.id by lia. reflexivity. }
  assert (Hnpos : 0 < inject_Z numParts).
  { change 0 with (inject_Z 0). rewrite <- Zlt_Qlt. lia. }
  assert (Hinc : inc == (t0 - f0) / inject_Z numParts).
  { unfold inc. rewrite MulDenom_value. unfold big.Sub.
    rewrite Qred_correct. rewrite Z2Pos.id by lia. reflexivity. }
  assert (Hsum : inject_Z numParts * inc == t0 - f0).
  { rewrite Hinc. field. lra. }
  assert (Hincpos : 0 < inc).
  { rewrite Hinc. apply Qlt_shift_div_l; [exact Hnpos | lra]. }
  destruct (Split_loop_ok (Z.to_nat numParts) f0 inc Hincpos H0)
    as (parts & last & EL & Plen & Plast & Pcov & Pval & Pinc).
  { rewrite Hnat, Hsum. lra. }
  rewrite Hnat, Hsum in Plast.
  assert (Hlast : last == t0) by (rewrite Plast; ring).
  rewrite EL.
  apply Cmp_zero_iff in Hlast. rewrite Hlast. cbn [negb].
  apply Cmp_zero_iff in Hlast.
  exists parts. repeat split.
  - exact Plen.
  - exact (covers_comp parts f0 last t0 Hlast Pcov).
  - exact Pval.
  - eapply Forall_impl; [|exact Pinc].
    intros p Hp. cbv beta in Hp |- *. rewrite Hp. exact Hinc.
Qed.

End Splitting.

(** C5. On a valid or nil segment, [Split] fails exactly when
    [numParts < 1].  For [numParts >= 1] it returns [numParts] segments,
    each of length [(to - from) / numParts]; the first starts at the
    [from] of the segment, each one starts where the one before it ends,
    and the last ends at its [to]. *)
Theorem Split_spec (es : option ExecutionSegment) (numParts : Z) :
  valid_or_nil es ->
  (is_err (Split es numParts) = true <-> numParts < 1) /\
  (1 <= numParts ->
   exists parts,
     Split es numParts = Ok parts /\
     List.length parts = Z.to_nat numParts /\
     covers (from_of es) parts (to_of es) /\
     Forall valid parts /\
     Forall (fun p =>
               (length p == (to_of es - from_of es) / inject_Z numParts)%Q)
            parts).
Proof.
  intros Hes. split.
  - split.
    + intros E. destruct (Z_lt_le_dec numParts 1) as [H | H]; [exact H|].
      destruct (Split_ok es numParts Hes H) as (parts & EP & _).
      rewrite EP in E. discriminate.
    + intros H. rewrite Split_unfold.
      apply Z.ltb_lt in H. rewrite H. reflexivity.
  - intros H. exact (Split_ok es numParts Hes H).
Qed.

Lemma Split_spec_witness :
  (is_err (Split None 3) = true <-> 3 < 1) /\
  (1 <= 3 ->
   exists parts,
     Split None 3 = Ok parts /\
     List.length parts = Z.to_nat 3 /\
     covers (from_of None) parts (to_of None) /\
     Forall valid parts /\
     Forall (fun p =>
               (length p == (to_of None - from_of None) / inject_Z 3)%Q)
            parts).
Proof.
  apply (Split_spec None 3). exact I.
Defined.

(** ** Text *)

Section Strings.

Local Open Scope string_scope.
Local Open Scope nat_scope.

Lemma string_forall_app (P : ascii -> bool) (a b : string) :
  string_forall P (a ++ b) = string_forall P a && string_forall P b.
Proof.
  induction a as [|c a IH]; simpl; [reflexivity|].
  rewrite IH. apply andb_assoc.
Qed.

Lemma string_forall_impl (P Q : ascii -> bool) (s : string) :
  (forall c, P c = true -> Q c = true) ->
  string_forall P s = true -> string_forall Q s = true.
Proof.
  intros HPQ. induction s as [|c s IH]; simpl; [reflexivity|].
  intros H. apply andb_true_iff in H. destruct H as [H1 H2].
  rewrite (HPQ c H1), (IH H2). reflexivity.
Qed.

Lemma IndexByte_none (P : ascii -> bool) (s : string) (c : ascii) :
  string_forall P s = true -> P c = false -> strings.IndexByte s c = None.
Proof.
  intros Hs Hc. induction s as [|a s IH]; simpl in *; [reflexivity|].
  apply andb_true_iff in Hs. destruct Hs as [Ha Hs].
  destruct (Ascii.eqb a c) eqn:E.
  - apply Ascii.eqb_eq in E. subst a. congruence.
  - rewrite (IH Hs). reflexivity.
Qed.

Lemma IndexByte_app (a b : string) (c : ascii) :
  strings.IndexByte a c = None ->
  strings.IndexByte (a ++ String c b) c = Some (String.length a).
Proof.
  induction a as [|x a IH]; simpl.
  - intros _. rewrite Ascii.eqb_refl. reflexivity.
  - destruct (Ascii.eqb x c); [discriminate|].
    destruct (strings.IndexByte a c); [discriminate|].
    intros _. rewrite IH by reflexivity. reflexivity.
Qed.

Lemma substring_all (s : string) : substring 0 (String.length s) s = s.
Proof. induction s as [|c s IH]; simpl; [reflexivity|]. rewrite IH. reflexivity. Qed.

Lemma substring_app_left (a b : string) :
  substring 0 (String.length a) (a ++ b) = a.
Proof.
  induction a as [|c a IH]; simpl.
  - destruct b; reflexivity.
  - rewrite IH. reflexivity.
Qed.

Lemma substring_app_right (a b : string) (c : ascii) :
  substring (S (String.length a))
            (String.length (a ++ String c b) - S (String.length a))
            (a ++ String c b) = b.
Proof.
  induction a as [|x a IH]; simpl.
  - rewrite Nat.sub_0_r. apply substring_all.
  - exact IH.
Qed.

Lemma append_empty (s : string) : s ++ "" = s.
Proof. induction s as [|c s IH]; simpl; [reflexivity|]. rewrite IH. reflexivity. Qed.

Lemma substring_one_occurs (s : string) (c : ascii) :
  forall n, substring n 1 s = String c "" -> strings.IndexByte s c <> None.
Proof.
  induction s as [|a s IH]; intros n H.
  - destruct n; discriminate.
  - destruct n as [|n]; simpl in H.
    + assert (E : a = c) by congruence. subst a.
      simpl. rewrite Ascii.eqb_refl. discriminate.
    + simpl. destruct (Ascii.eqb a c); [discriminate|].
      specialize (IH n H). destruct (strings.IndexByte s c); [discriminate|].
      congruence.
Qed.

Lemma HasSuffix_occurs (s : string) (c : ascii) :
  strings.HasSuffix s (String c "") = true -> strings.IndexByte s c <> None.
Proof.
  unfold strings.HasSuffix. intros H.
  apply andb_true_iff in H. destruct H as [_ H].
  apply String.eqb_eq in H.
  exact (substring_one_occurs s c _ H).
Qed.

Lemma HasSuffix_none (P : ascii -> bool) (s : string) (c : ascii) :
  string_forall P s = true -> P c = false ->
  strings.HasSuffix s (String c "") = false.
Proof.
  intros Hs Hc. destruct (strings.HasSuffix s (String c "")) eqn:E; [|reflexivity].
  apply HasSuffix_occurs in E. rewrite (IndexByte_none P s c Hs Hc) in E.
  congruence.
Qed.

End Strings.

Section Decimal.

Local Open Scope string_scope.

Lemma digits_of_uint (d : Decimal.uint) :
  string_forall is_digit (NilEmpty.string_of_uint d) = true.
Proof. induction d; simpl; auto. Qed.

Lemma string_of_uint_nonempty (d : Decimal.uint) :
  d <> Decimal.Nil -> NilEmpty.string_of_uint d <> "".
Proof. destruct d; simpl; congruence. Qed.

Lemma scanDigits_nonempty (s : string) :
  s <> "" ->
  bigtext.scanDigits s = option_map Z.of_uint (NilEmpty.uint_of_string s).
Proof. destruct s; [congruence | reflexivity]. Qed.

Lemma scanDigits_of_uint (d : Decimal.uint) :
  d <> Decimal.Nil ->
  bigtext.scanDigits (NilEmpty.string_of_uint d) = Some (Z.of_uint d).
Proof.
  intros Hd. rewrite scanDigits_nonempty by (apply string_of_uint_nonempty; exact Hd).
  rewrite NilEmpty.usu. reflexivity.
Qed.

Lemma scanSign_digits (s : string) :
  string_forall is_digit s = true -> bigtext.scanSign s = (false, s).
Proof.
  destruct s as [|a rest]; [reflexivity|]. simpl. intros H.
  apply andb_true_iff in H. destruct H as [Ha _].
  destruct a as [[|] [|] [|] [|] [|] [|] [|] [|]];
    try discriminate Ha; reflexivity.
Qed.

(** The text of an integer: the digits of its absolute value, after a
    [-] when it is negative. *)
Lemma Int_String_digits (z : Z) :
  exists d : Decimal.uint,
    d <> Decimal.Nil /\ Z.of_uint d = Z.abs z /\
    bigtext.Int_String z =
    if (z <? 0)%Z then String "-" (NilEmpty.string_of_uint d)
    else NilEmpty.string_of_uint d.
Proof.
  destruct z as [|p|p].
  - exists (Decimal.D0 Decimal.Nil). repeat split. discriminate.
  - exists (Pos.to_uint p).
    pose proof (Unsigned.to_uint_nonnil p) as Hn.
    repeat split; [exact Hn | |].
    + unfold Z.of_uint. rewrite DecimalPos.Unsigned.of_to. reflexivity.
    + unfold bigtext.Int_String. cbn [Z.to_int NilZero.string_of_int Z.ltb Z.compare].
      unfold NilZero.string_of_uint. destruct (Pos.to_uint p); congruence.
  - exists (Pos.to_uint p).
    pose proof (Unsigned.to_uint_nonnil p) as Hn.
    repeat split; [exact Hn | |].
    + unfold Z.of_uint. rewrite DecimalPos.Unsigned.of_to. reflexivity.
    + unfold bigtext.Int_String. cbn [Z.to_int NilZero.string_of_int Z.ltb Z.compare].
      unfold NilZero.string_of_uint. destruct (Pos.to_uint p); congruence.
Qed.

Lemma Int_String_chars (z : Z) :
  string_forall is_rat_char (bigtext.Int_String z) = true.
Proof.
  destruct (Int_String_digits z) as (d & _ & _ & ->).
  assert (H : string_forall is_rat_char (NilEmpty.string_of_uint d) = true).
  { apply (string_forall_impl is_digit); [|apply digits_of_uint].
    intros c Hc. unfold is_rat_char. rewrite Hc. reflexivity. }
  destruct (z <? 0)%Z; [|exact H].
  simpl. exact H.
Qed.

Lemma Int_String_nonempty (z : Z) : bigtext.Int_String z <> "".
Proof.
  destruct (Int_String_digits z) as (d & Hd & _ & ->).
  destruct (z <? 0)%Z; [discriminate|].
  apply string_of_uint_nonempty. exact Hd.
Qed.

(** Reading back the text of an integer. *)
Lemma Int_SetString_String (z : Z) :
  bigtext.Int_SetString (bigtext.Int_String z) = Some z.
Proof.
  destruct (Int_String_digits z) as (d & Hd & Hv & ->).
  unfold bigtext.Int_SetString.
  destruct (z <? 0)%Z eqn:E.
  - cbn [bigtext.scanSign]. rewrite (scanDigits_of_uint d Hd), Hv.
    apply Z.ltb_lt in E. f_equal. lia.
  - rewrite (scanSign_digits _ (digits_of_uint d)).
    rewrite (scanDigits_of_uint d Hd), Hv.
    apply Z.ltb_ge in E. f_equal. lia.
Qed.

Lemma scanDigits_String_pos (p : positive) :
  bigtext.scanDigits (bigtext.Int_String (Z.pos p)) = Some (Z.pos p).
Proof.
  destruct (Int_String_digits (Z.pos p)) as (d & Hd & Hv & ->).
  cbn [Z.ltb Z.compare]. rewrite (scanDigits_of_uint d Hd), Hv. reflexivity.
Qed.

Lemma Qred_integer (n : Z) : Qred (n # 1) = n # 1.
Proof. apply Qred_identity. cbn [Qnum Qden]. apply Z.gcd_1_r. Qed.

Lemma Int_String_no_bar (z : Z) :
  strings.IndexByte (bigtext.Int_String z) "/" = None.
Proof.
  destruct (Int_String_digits z) as (d & _ & _ & ->).
  assert (Hd : strings.IndexByte (NilEmpty.string_of_uint d) "/" = None).
  { apply (IndexByte_none is_digit); [apply digits_of_uint | reflexivity]. }
  destruct (z <? 0)%Z; [|exact Hd].
  simpl. rewrite Hd. reflexivity.
Qed.

Lemma scanDecimal_String (z : Z) :
  bigtext.scanDecimal (bigtext.Int_String z) = Some (z # 1).
Proof.
  destruct (Int_String_digits z) as (d & Hd & Hv & ->).
  assert (Hdot : strings.IndexByte (NilEmpty.string_of_uint d) "." = None).
  { apply (IndexByte_none is_digit); [apply digits_of_uint | reflexivity]. }
  unfold bigtext.scanDecimal.
  destruct (z <? 0)%Z eqn:E.
  - cbn [bigtext.scanSign]. rewrite Hdot, append_empty.
    rewrite (scanDigits_of_uint d Hd), Hv. cbn [String.length Z.of_nat Z.pow Z.to_pos].
    rewrite Qred_integer. apply Z.ltb_lt in E. unfold Qopp. cbn [Qnum Qden].
    do 2 f_equal. lia.
  - rewrite (scanSign_digits _ (digits_of_uint d)).
    rewrite Hdot, append_empty.
    rewrite (scanDigits_of_uint d Hd), Hv. cbn [String.length Z.of_nat Z.pow Z.to_pos].
    rewrite Qred_integer. apply Z.ltb_ge in E. do 2 f_equal. lia.
Qed.

Lemma RatString_chars (x : big.Rat) :
  string_forall is_rat_char (bigtext.RatString x) = true.
Proof.
  unfold bigtext.RatString. destruct (bigtext.IsInt x).
  - apply Int_String_chars.
  - rewrite string_forall_app, Int_String_chars.
    change ("/" ++ bigtext.Int_String (big.Denom x))
      with (String "/" (bigtext.Int_String (big.Denom x))).
    cbn [string_forall]. rewrite Int_String_chars. reflexivity.
Qed.

(** Reading back the text of a rational gives it in lowest terms. *)
Lemma Rat_SetString_RatString (x : big.Rat) :
  bigtext.Rat_SetString (bigtext.RatString x) = Some (Qred x).
Proof.
  pose proof (RatString_chars x) as Hchars. revert Hchars.
  unfold bigtext.RatString. destruct (bigtext.IsInt x) eqn:EI; intros Hchars.
  - unfold bigtext.Rat_SetString.
    destruct (bigtext.Int_String (big.Num x)) eqn:ES.
    { exfalso. exact (Int_String_nonempty _ ES). }
    rewrite <- ES in *.
    rewrite (Int_String_no_bar (big.Num x)), scanDecimal_String.
    unfold bigtext.IsInt in EI. apply Pos.eqb_eq in EI.
    destruct x as [n d]. cbn [Qden big.Num Qnum] in *. subst d.
    rewrite Qred_integer. reflexivity.
  - set (a := bigtext.Int_String (big.Num x)) in *.
    set (b := bigtext.Int_String (big.Denom x)) in *.
    change (a ++ "/" ++ b) with (a ++ String "/" b) in *.
    unfold bigtext.Rat_SetString.
    destruct (a ++ String "/" b) eqn:ES.
    { exfalso. destruct a; discriminate ES. }
    rewrite <- ES.
    rewrite (IndexByte_app a b "/" (Int_String_no_bar (big.Num x))).
    rewrite substring_app_left, substring_app_right.
    unfold a, b, big.Denom.
    rewrite Int_SetString_String, scanDigits_String_pos.
    unfold big.Num. destruct x as [n d]. reflexivity.
Qed.

Lemma stringToRat_RatString (x : big.Rat) :
  stringToRat (bigtext.RatString x) = Ok (Qred x).
Proof.
  unfold stringToRat.
  rewrite (HasSuffix_none is_rat_char _ "%" (RatString_chars x) eq_refl).
  rewrite (Rat_SetString_RatString x). reflexivity.
Qed.

End Decimal.

Section Unmarshalling.

Local Open Scope string_scope.

(** Whatever the text, [UnmarshalText] either fails and hands the
    receiver back, or stores a segment built by [NewExecutionSegment]
    from 0 or a parsed start and from a parsed end. *)
Lemma UnmarshalText_cases (es : ExecutionSegment) (text : string) :
  (exists e, UnmarshalText es text = (es, Some e)) \/
  (exists f t segment,
      (f = zeroRat \/ exists fromStr, stringToRat fromStr = Ok f) /\
      (exists toStr, stringToRat toStr = Ok t) /\
      NewExecutionSegment f t = Ok segment /\
      UnmarshalText es text = (segment, None)).
Proof.
  unfold UnmarshalText.
  destruct (strings.ContainsRune text ":").
  - destruct (stringToRat (nth 0 (strings.SplitN2 text ":") "")) as [f|e] eqn:Ef;
      [|left; eexists; reflexivity].
    destruct (stringToRat (nth 1 (strings.SplitN2 text ":") "")) as [t|e] eqn:Et;
      [|left; eexists; reflexivity].
    destruct (NewExecutionSegment f t) as [segment|e] eqn:E;
      [|left; eexists; reflexivity].
    right. exists f, t, segment. repeat split.
    + right. eexists. exact Ef.
    + eexists. exact Et.
    + exact E.
  - destruct (stringToRat text) as [t|e] eqn:Et; [|left; eexists; reflexivity].
    destruct (NewExecutionSegment zeroRat t) as [segment|e] eqn:E;
      [|left; eexists; reflexivity].
    right. exists zeroRat, t, segment. repeat split.
    + left. reflexivity.
    + eexists. exact Et.
    + exact E.
Qed.

Lemma NewExecutionSegment_valid (f t : big.Rat) (segment : ExecutionSegment) :
  NewExecutionSegment f t = Ok segment -> valid segment.
Proof.
  intros E. apply NewExecutionSegment_inv in E.
  destruct E as (H0 & Hlt & H1 & ->).
  unfold valid. cbn [from to length]. repeat split; try assumption.
  apply Qred_correct.
Qed.

(** Parsing the text of a valid segment gives its bounds back, in
    lowest terms. *)
Lemma UnmarshalText_String (es s : ExecutionSegment) :
  valid s ->
  UnmarshalText es (String_ (Some s)) =
  (mkSegment (Qred (from s)) (Qred (to s))
             (big.Sub (Qred (to s)) (Qred (from s))), None).
Proof.
  intros (H0 & Hlt & H1 & _).
  unfold String_, UnmarshalText.
  set (a := bigtext.RatString (from s)).
  set (b := bigtext.RatString (to s)).
  change (a ++ ":" ++ b) with (a ++ String ":" b).
  assert (Hcolon : strings.IndexByte a ":" = None).
  { apply (IndexByte_none is_rat_char); [apply RatString_chars | reflexivity]. }
  unfold strings.ContainsRune, strings.SplitN2.
  rewrite (IndexByte_app a b ":" Hcolon).
  rewrite substring_app_left, substring_app_right.
  cbn [nth]. unfold a, b.
  rewrite !stringToRat_RatString.
  rewrite NewExecutionSegment_ok; [reflexivity | | |].
  - rewrite Qred_correct. exact H0.
  - rewrite !Qred_correct. exact Hlt.
  - rewrite Qred_correct. exact H1.
Qed.

End Unmarshalling.

(** ** Lowest terms

    Every rational that the operations store in a segment is in lowest
    terms, so the bounds of a segment are, as soon as those handed to
    [NewExecutionSegment] were. *)

Section LowestTerms.

Local Open Scope Q_scope.

Lemma normalized_Qred (q : Q) : normalized (Qred q).
Proof. apply Qred_involutive. Qed.

Lemma normalized_opp (q : Q) : normalized q -> normalized (- q).
Proof. unfold normalized. intros H. rewrite Qred_opp, H. reflexivity. Qed.

Lemma normalized_of_Some (q r : big.Rat) :
  Some q = Some r -> normalized q -> normalized r.
Proof. intros H. injection H as <-. exact (fun H => H). Qed.

Lemma Rat_SetString_normalized (str : string) (r : big.Rat) :
  bigtext.Rat_SetString str = Some r -> normalized r.
Proof.
  unfold bigtext.Rat_SetString. destruct str as [|c str]; [discriminate|].
  destruct (strings.IndexByte (String c str) "/") as [sep|].
  - destruct (bigtext.Int_SetString _) as [a|]; [|discriminate].
    destruct (bigtext.scanDigits _) as [[|b|b]|]; try discriminate.
    intros H. apply (normalized_of_Some _ _ H). apply normalized_Qred.
  - unfold bigtext.scanDecimal.
    destruct (bigtext.scanSign (String c str)) as [neg rest].
    destruct (strings.IndexByte rest ".") as [i|];
      destruct (bigtext.scanDigits _) as [m|]; try discriminate;
      intros H; apply (normalized_of_Some _ _ H); destruct neg;
      try apply normalized_opp; apply normalized_Qred.
Qed.

Lemma stringToRat_normalized (str : string) (r : big.Rat) :
  stringToRat str = Ok r -> normalized r.
Proof.
  unfold stringToRat. destruct (strings.HasSuffix str "%").
  - destruct (bigtext.Int_SetString _) as [num|]; [|discriminate].
    intros H. injection H as <-. apply normalized_Qred.
  - destruct (bigtext.Rat_SetString str) as [rat|] eqn:E; [|discriminate].
    intros H. injection H as <-. exact (Rat_SetString_normalized str rat E).
Qed.

Lemma UnmarshalText_normalized (es : ExecutionSegment) (text : string)
      (s : ExecutionSegment) :
  UnmarshalText es text = (s, None) -> normalized_segment s.
Proof.
  intros E.
  destruct (UnmarshalText_cases es text)
    as [(e & E') | (f & t & sg & Hf & (toStr & Ht) & E1 & E2)].
  - rewrite E' in E. discriminate.
  - rewrite E2 in E. injection E as <-.
    apply NewExecutionSegment_inv in E1. destruct E1 as (_ & _ & _ & ->).
    unfold normalized_segment. cbn [from to length]. repeat split.
    + destruct Hf as [-> | (fromStr & Hf)]; [reflexivity|].
      exact (stringToRat_normalized _ _ Hf).
    + exact (stringToRat_normalized _ _ Ht).
    + apply normalized_Qred.
Qed.

Lemma SubSegment_normalized (parent : option ExecutionSegment)
      (c r : ExecutionSegment) :
  SubSegment parent (Some c) = Some r -> normalized_segment r.
Proof.
  rewrite SubSegment_some. intros E. injection E as <-.
  repeat split; apply normalized_Qred.
Qed.

Lemma Split_loop_normalized (k : nat) :
  forall (f inc : big.Rat) (parts : list ExecutionSegment) (last : big.Rat),
    normalized f -> Split_loop k f inc = Ok (parts, last) ->
    Forall normalized_segment parts.
Proof.
  induction k as [|k IH]; intros f inc parts last Hf E; cbn [Split_loop] in E.
  - injection E as <- <-. constructor.
  - destruct (NewExecutionSegment f (big.Add f inc)) as [sg|e] eqn:E1;
      [|discriminate].
    destruct (Split_loop k (big.Add f inc) inc) as [[rest l]|e] eqn:E2;
      [|discriminate].
    injection E as <- <-.
    apply NewExecutionSegment_inv in E1. destruct E1 as (_ & _ & _ & ->).
    constructor.
    + repeat split; [exact Hf | apply normalized_Qred | apply normalized_Qred].
    + exact (IH _ _ _ _ (normalized_Qred _) E2).
Qed.

Lemma Split_normalized (es : option ExecutionSegment) (numParts : Z)
      (parts : list ExecutionSegment) :
  normalized (from_of es) -> Split es numParts = Ok parts ->
  Forall normalized_segment parts.
Proof.
  intros Hf. rewrite Split_unfold.
  destruct (numParts <? 1)%Z; [discriminate|].
  destruct (Split_loop _ _ _) as [[results last]|e] eqn:E; [|discriminate].
  destruct (negb _); [discriminate|].
  intros H. injection H as <-.
  exact (Split_loop_normalized _ _ _ _ _ Hf E).
Qed.

End LowestTerms.

(** C7. A segment is written as [<from>:<to>], each bound in the
    notation of [RatString], and the nil segment as [0:1], which parses
    to a segment [Equal] to it; [MarshalText] writes a segment the same
    way.  For a valid segment, parsing what
    was written succeeds and gives a segment with the same bounds, hence
    [Equal] to the original; with the bounds in lowest terms, as
    [big.Rat] keeps them, the bounds come back as they were and writing
    the parsed segment gives the same text again. *)
Theorem String_UnmarshalText_roundtrip (es s : ExecutionSegment) :
  valid s ->
  String_ (Some s) =
    (bigtext.RatString (from s) ++ ":" ++ bigtext.RatString (to s))%string /\
  String_ None = "0:1"%string /\
  Equal (Some (fst (UnmarshalText es (String_ None)))) None = true /\
  MarshalText (Some s) = (Some (String_ (Some s)), None) /\
  exists parsed,
    UnmarshalText es (String_ (Some s)) = (parsed, None) /\
    (from parsed == from s)%Q /\ (to parsed == to s)%Q /\
    Equal (Some parsed) (Some s) = true /\
    (normalized (from s) -> normalized (to s) ->
     from parsed = from s /\ to parsed = to s /\
     String_ (Some parsed) = String_ (Some s)).
Proof.
  intros Hs. split; [reflexivity|]. split; [reflexivity|]. split; [reflexivity|].
  split; [reflexivity|].
  exists (mkSegment (Qred (from s)) (Qred (to s))
                    (big.Sub (Qred (to s)) (Qred (from s)))).
  split; [apply UnmarshalText_String; exact Hs|].
  cbn [from to]. split; [apply Qred_correct|]. split; [apply Qred_correct|].
  split.
  - unfold Equal. cbn [from to].
    apply andb_true_iff. split; apply Cmp_zero_iff; apply Qred_correct.
  - intros Hf Ht. unfold String_. cbn [from to].
    rewrite Hf, Ht. repeat split.
Qed.

Lemma String_UnmarshalText_roundtrip_witness :
  String_ (Some (mkSegment (1 # 2) (3 # 4) (1 # 4))) =
    (bigtext.RatString (1 # 2) ++ ":" ++ bigtext.RatString (3 # 4))%string /\
  String_ None = "0:1"%string /\
  Equal (Some (fst (UnmarshalText (mkSegment (0 # 1) (1 # 1) (1 # 1))
                                  (String_ None)))) None = true /\
  MarshalText (Some (mkSegment (1 # 2) (3 # 4) (1 # 4))) =
    (Some (String_ (Some (mkSegment (1 # 2) (3 # 4) (1 # 4)))), None) /\
  exists parsed,
    UnmarshalText (mkSegment (0 # 1) (1 # 1) (1 # 1))
                  (String_ (Some (mkSegment (1 # 2) (3 # 4) (1 # 4))))
    = (parsed, None) /\
    (from parsed == 1 # 2)%Q /\ (to parsed == 3 # 4)%Q /\
    Equal (Some parsed) (Some (mkSegment (1 # 2) (3 # 4) (1 # 4))) = true /\
    (normalized (1 # 2) -> normalized (3 # 4) ->
     from parsed = (1 # 2) /\ to parsed = (3 # 4) /\
     String_ (Some parsed) = String_ (Some (mkSegment (1 # 2) (3 # 4) (1 # 4)))).
Proof.
  apply (String_UnmarshalText_roundtrip
           (mkSegment (0 # 1) (1 # 1) (1 # 1))
           (mkSegment (1 # 2) (3 # 4) (1 # 4))).
  unfold valid, Qle, Qlt, Qeq. simpl. lia.
Defined.

(** C8. The empty text is not parsed as the full segment: [UnmarshalText]
    rejects it, as a text that is no percentage, decimal or fraction,
    and leaves the receiver alone, while the text [1] gives (0, 1]. *)
Theorem UnmarshalText_empty_fails (es : ExecutionSegment) :
  UnmarshalText es "" = (es, Some (ErrNotValue "")) /\
  UnmarshalText es "1" = (mkSegment (0 # 1) (1 # 1) (1 # 1), None) /\
  Scale (Some (mkSegment (0 # 1) (1 # 1) (1 # 1))) 100 = 100.
Proof.
  repeat split.
Qed.

(** C10. When [UnmarshalText] returns an error the receiver is what it
    was before the call; it is overwritten only with a segment that
    [NewExecutionSegment] accepted. *)
Theorem UnmarshalText_atomic (es : ExecutionSegment) (text : string) :
  match UnmarshalText es text with
  | (es', Some _) => es' = es
  | (es', None) => exists f t, NewExecutionSegment f t = Ok es'
  end.
Proof.
  destruct (UnmarshalText_cases es text)
    as [(e & ->) | (f & t & sg & _ & _ & E & ->)].
  - reflexivity.
  - exists f, t. exact E.
Qed.

(** C4. Every segment that an operation hands out satisfies
    [0 <= from < to <= 1] and [length = to - from]: the one built by
    [NewExecutionSegment], the one stored by [UnmarshalText], each part
    returned by [Split], and the result of [SubSegment], the last two on
    arguments that are valid or nil. *)
Theorem operations_give_valid_segments :
  (forall f t s, NewExecutionSegment f t = Ok s -> valid s) /\
  (forall es text s, UnmarshalText es text = (s, None) -> valid s) /\
  (forall es numParts parts,
      valid_or_nil es -> Split es numParts = Ok parts -> Forall valid parts) /\
  (forall parent child r,
      valid_or_nil parent -> valid_or_nil child ->
      SubSegment parent child = Some r -> valid r).
Proof.
  split; [|split; [|split]].
  - exact NewExecutionSegment_valid.
  - intros es text s E.
    destruct (UnmarshalText_cases es text)
      as [(e & E') | (f & t & sg & _ & _ & E1 & E2)].
    + rewrite E' in E. discriminate.
    + rewrite E2 in E. injection E as <-.
      exact (NewExecutionSegment_valid f t sg E1).
  - intros es numParts parts Hes E.
    destruct (Z_lt_le_dec numParts 1) as [H | H].
    + rewrite Split_unfold in E. apply Z.ltb_lt in H. rewrite H in E. discriminate.
    + destruct (Split_ok es numParts Hes H) as (parts' & E' & _ & _ & Hval & _).
      rewrite E' in E. injection E as <-. exact Hval.
  - intros parent [c|] r Hp Hc E.
    + exact (SubSegment_valid parent c r Hp Hc E).
    + simpl in E. subst parent. exact Hp.
Qed.

Lemma operations_give_valid_segments_witness :
  valid (mkSegment (1 # 2) (3 # 4) (1 # 4)).
Proof.
  apply (proj1 operations_give_valid_segments (1 # 2) (3 # 4))%Q.
  reflexivity.
Defined.

(** ** The examples of the documentation *)

Section Examples.

Local Open Scope string_scope.

Example NewExecutionSegment_examples :
  is_err (NewExecutionSegment (1 # 2) (1 # 4)) = true /\
  is_err (NewExecutionSegment (0 # 1) (1 # 1)) = false /\
  is_err (NewExecutionSegment (0 # 1) (3 # 2)) = true.
Proof. repeat split. Qed.

Example UnmarshalText_full_segments :
  map (UnmarshalText (mkSegment (0 # 1) (1 # 1) (1 # 1)))
      ["1/2:3/4"; "0.5:0.75"; "50%:75%"; "2/4:75%"]
  = repeat (mkSegment (1 # 2) (3 # 4) (1 # 4), None) 4.
Proof. reflexivity. Qed.

Example UnmarshalText_single_values :
  map (UnmarshalText (mkSegment (0 # 1) (1 # 1) (1 # 1))) ["20%"; "0.2"; "1/5"; "0:20%"]
  = repeat (mkSegment (0 # 1) (1 # 5) (1 # 5), None) 4.
Proof. reflexivity. Qed.

Example Split_thirds :
  Split (Some (mkSegment (0 # 1) (1 # 1) (1 # 1))) 3 =
  Ok [mkSegment (0 # 1) (1 # 3) (1 # 3);
      mkSegment (1 # 3) (2 # 3) (1 # 3);
      mkSegment (2 # 3) (1 # 1) (1 # 3)].
Proof. reflexivity. Qed.

Example Scale_thirds :
  map (fun s => Scale (Some s) 10)
      [mkSegment (0 # 1) (1 # 3) (1 # 3);
       mkSegment (1 # 3) (2 # 3) (1 # 3);
       mkSegment (2 # 3) (1 # 1) (1 # 3)]
  = [3; 4; 3].
Proof. reflexivity. Qed.

Example Scale_tie_goes_up :
  Scale (Some (mkSegment (0 # 1) (1 # 2) (1 # 2))) 1 = 1 /\
  Scale (Some (mkSegment (1 # 2) (1 # 1) (1 # 2))) 1 = 0.
Proof. repeat split. Qed.

Example Equal_nil_full :
  Equal None (Some (mkSegment (0 # 1) (1 # 1) (1 # 1))) = true.
Proof. reflexivity. Qed.

Example MarshalText_nil : MarshalText None = (None, None).
Proof. reflexivity. Qed.

End Examples.

(** * Further properties *)

(** ** Equal *)

Section Equality.

Local Open Scope Q_scope.

Lemma Equal_iff (a b : option ExecutionSegment) :
  Equal a b = true <-> from_of a == from_of b /\ to_of a == to_of b.
Proof.
  assert (E : Equal a b =
              (big.Cmp (from_of a) (from_of b) =? 0)%Z &&
              (big.Cmp (to_of a) (to_of b) =? 0)%Z).
  { destruct a, b; reflexivity. }
  rewrite E, andb_true_iff, !Cmp_zero_iff. reflexivity.
Qed.

Lemma Equal_sym (a b : option ExecutionSegment) : Equal a b = Equal b a.
Proof.
  destruct (Equal a b) eqn:E1; destruct (Equal b a) eqn:E2; try reflexivity.
  - apply Equal_iff in E1. destruct E1 as [H1 H2].
    assert (H : Equal b a = true).
    { apply Equal_iff. split; symmetry; assumption. }
    congruence.
  - apply Equal_iff in E2. destruct E2 as [H1 H2].
    assert (H : Equal a b = true).
    { apply Equal_iff. split; symmetry; assumption. }
    congruence.
Qed.

Lemma Scale_comp (a b : ExecutionSegment) (value : Z) :
  from a == from b -> to a == to b ->
  Scale (Some a) value = Scale (Some b) value.
Proof.
  intros Hf Ht. unfold Scale, big.Mul.
  rewrite (Qred_complete (big.NewRat1 value * to a) (big.NewRat1 value * to b))
    by (rewrite Ht; reflexivity).
  rewrite (Qred_complete (big.NewRat1 value * from a) (big.NewRat1 value * from b))
    by (rewrite Hf; reflexivity).
  reflexivity.
Qed.

Lemma roundUp_integer (n : Z) : roundUp (n # 1) = n.
Proof.
  unfold roundUp, big.QuoRem, big.Num, big.Denom, twoBigInt, Z.quotrem.
  cbn [Qnum Qden].
  assert (Q' : Z.quot n 1 = fst (Z.quotrem n 1)) by reflexivity.
  assert (R : Z.rem n 1 = snd (Z.quotrem n 1)) by reflexivity.
  rewrite Z.quot_1_r in Q'. rewrite Z.rem_1_r in R.
  fold (Z.quotrem n 1).
  destruct (Z.quotrem n 1) as [quo rem]. cbn [fst snd] in *. subst. reflexivity.
Qed.

Lemma Scale_full (s : ExecutionSegment) (value : Z) :
  int64_range value -> from s == 0 -> to s == 1 ->
  Scale (Some s) value = value.
Proof.
  intros Hr Hf Ht.
  rewrite (Scale_comp s (mkSegment (0 # 1) (1 # 1) (1 # 1)) value Hf Ht).
  unfold Scale. cbn [from to]. unfold big.Mul, big.Sub, big.SetFrac, big.NewRat1.
  rewrite (Qred_complete ((value # 1) * (0 # 1)) (0 # 1))
    by (unfold Qeq; simpl; lia).
  change (Qred (0 # 1)) with (0 # 1). rewrite roundUp_integer.
  change (Qred (0 # 1)) with (0 # 1).
  rewrite (Qred_complete (Qred ((value # 1) * (1 # 1)) - (0 # 1)) (value # 1)).
  - rewrite Qred_integer, roundUp_integer. apply Int64_small. exact Hr.
  - rewrite Qred_correct. unfold Qeq. simpl. lia.
Qed.

End Equality.

(** X1. [Equal] compares the bounds by value, nil standing for 0 and 1:
    it holds exactly when the two [from] and the two [to] are the same
    rationals.  It is reflexive, symmetric and transitive, and the nil
    segment is [Equal] to every segment with the bounds 0 and 1, however
    its [length] field is filled. *)
Theorem Equal_equivalence :
  (forall a b : option ExecutionSegment,
      Equal a b = true <->
      (from_of a == from_of b)%Q /\ (to_of a == to_of b)%Q) /\
  (forall a : option ExecutionSegment, Equal a a = true) /\
  (forall a b : option ExecutionSegment, Equal a b = Equal b a) /\
  (forall a b c : option ExecutionSegment,
      Equal a b = true -> Equal b c = true -> Equal a c = true) /\
  (forall l : big.Rat, Equal None (Some (mkSegment (0 # 1) (1 # 1) l)) = true).
Proof.
  split; [exact Equal_iff|]. split; [|split; [exact Equal_sym|split]].
  - intros a. apply Equal_iff. split; reflexivity.
  - intros a b c H1 H2. apply Equal_iff in H1. apply Equal_iff in H2.
    destruct H1 as [F1 T1]. destruct H2 as [F2 T2]. apply Equal_iff.
    split; [rewrite F1; exact F2 | rewrite T1; exact T2].
  - intros l. reflexivity.
Qed.

Lemma Equal_equivalence_witness :
  Equal (Some (mkSegment (2 # 4) (3 # 4) (1 # 4))) None = false /\
  Equal (Some (mkSegment (2 # 4) (3 # 4) (1 # 4)))
        (Some (mkSegment (1 # 2) (6 # 8) (0 # 1))) = true.
Proof.
  split; [reflexivity|].
  apply (proj1 (proj2 (proj2 (proj2 Equal_equivalence)))
           (Some (mkSegment (2 # 4) (3 # 4) (1 # 4)))
           (Some (mkSegment (1 # 2) (3 # 4) (1 # 4)))
           (Some (mkSegment (1 # 2) (6 # 8) (0 # 1)))); reflexivity.
Defined.

(** X2. Segments that are [Equal] scale every int64 value to the same
    share; a segment with the bounds 0 and 1 scales like the nil
    segment and returns the value, negative or not. *)
Theorem Equal_Scale (a b : option ExecutionSegment) (value : Z) :
  int64_range value -> Equal a b = true -> Scale a value = Scale b value.
Proof.
  intros Hr E. apply Equal_iff in E. destruct E as [Hf Ht].
  destruct a as [a|], b as [b|]; cbn [from_of to_of] in Hf, Ht.
  - exact (Scale_comp a b value Hf Ht).
  - rewrite (Scale_full a value Hr Hf Ht). reflexivity.
  - symmetry in Hf, Ht. rewrite (Scale_full b value Hr Hf Ht). reflexivity.
  - reflexivity.
Qed.

Lemma Equal_Scale_witness :
  Scale (Some (mkSegment (0 # 1) (1 # 1) (1 # 1))) (-7) = Scale None (-7).
Proof.
  apply (Equal_Scale (Some (mkSegment (0 # 1) (1 # 1) (1 # 1))) None (-7)).
  - unfold int64_range. lia.
  - reflexivity.
Defined.

(** X3. For a valid segment and an int64 [value >= 0] the share lies
    between 0 and [value], and it is less than 1 away from the exact
    share [value * length]. *)
Theorem Scale_bounds (s : ExecutionSegment) (value : Z) :
  valid s -> int64_range value -> 0 <= value ->
  0 <= Scale (Some s) value <= value /\
  (inject_Z value * length s - 1 < inject_Z (Scale (Some s) value)
   < inject_Z value * length s + 1)%Q.
Proof.
  intros Hs Hr Hv. rewrite (Scale_boundary s value Hs Hr Hv).
  destruct Hs as (H0 & Hlt & H1 & Hlen).
  pose proof (boundary_mono value _ _ Hv H0) as A.
  pose proof (boundary_mono value _ _ Hv (Qlt_le_weak _ _ Hlt)) as B.
  pose proof (boundary_mono value _ _ Hv H1) as C.
  rewrite boundary_0 in A. rewrite boundary_1 in C.
  split; [lia|].
  unfold boundary in *. unfold Z.sub.
  rewrite inject_Z_plus, inject_Z_opp, Hlen.
  pose proof (Qfloor_le (inject_Z value * to s + (1 # 2))) as T1.
  pose proof (Qlt_floor (inject_Z value * to s + (1 # 2))) as T2.
  pose proof (Qfloor_le (inject_Z value * from s + (1 # 2))) as F1.
  pose proof (Qlt_floor (inject_Z value * from s + (1 # 2))) as F2.
  rewrite inject_Z_plus in T2, F2. change (inject_Z 1) with 1%Q in T2, F2.
  split; lra.
Qed.

Lemma Scale_bounds_witness :
  0 <= Scale (Some (mkSegment (1 # 3) (2 # 3) (1 # 3))) 10 <= 10 /\
  (inject_Z 10 * (1 # 3) - 1
   < inject_Z (Scale (Some (mkSegment (1 # 3) (2 # 3) (1 # 3))) 10)
   < inject_Z 10 * (1 # 3) + 1)%Q.
Proof.
  apply (Scale_bounds (mkSegment (1 # 3) (2 # 3) (1 # 3)) 10).
  - unfold valid, Qle, Qlt, Qeq. simpl. lia.
  - unfold int64_range. lia.
  - lia.
Defined.

(** ** Scale on values of either sign *)

Section NegativeValues.

Local Open Scope Q_scope.

Lemma roundUp_nonpos (q : Q) : q <= 0 -> roundUp q = Qceiling q.
Proof.
  intros H. destruct (Qlt_le_dec q 0) as [Hlt | Hge].
  - apply roundUp_ceiling. exact Hlt.
  - assert (E : q == 0) by lra.
    rewrite (Qceiling_comp q 0 E).
    rewrite roundUp_floor by lra.
    rewrite (Qfloor_comp (q + (1 # 2)) (1 # 2)) by (rewrite E; ring).
    reflexivity.
Qed.

Lemma Qceiling_sub_Z (q : Q) (k : Z) :
  Qceiling (q - inject_Z k) = (Qceiling q - k)%Z.
Proof.
  unfold Qceiling.
  rewrite (Qfloor_comp (- (q - inject_Z k)) (- q - inject_Z (- k)))
    by (rewrite inject_Z_opp; ring).
  rewrite Qfloor_sub_Z. lia.
Qed.

Lemma neg_product_nonpos (value : Z) (x : Q) :
  (value <= 0)%Z -> 0 <= x -> inject_Z value * x <= 0.
Proof.
  intros Hv Hx.
  assert (Hn : 0 <= - inject_Z value).
  { rewrite Zle_Qle in Hv. change (inject_Z 0) with 0 in Hv. lra. }
  pose proof (Qmult_le_0_compat _ _ Hn Hx). lra.
Qed.

Lemma neg_product_antitone (value : Z) (x y : Q) :
  (value <= 0)%Z -> x <= y -> inject_Z value * y <= inject_Z value * x.
Proof.
  intros Hv Hxy.
  assert (H : 0 <= y - x) by lra.
  pose proof (neg_product_nonpos value (y - x) Hv H). lra.
Qed.

Lemma boundary_neg_antitone (value : Z) (x y : Q) :
  (value <= 0)%Z -> x <= y -> (boundary_neg value y <= boundary_neg value x)%Z.
Proof.
  intros Hv Hxy. unfold boundary_neg. apply Qceiling_resp_le.
  apply neg_product_antitone; assumption.
Qed.

Lemma boundary_neg_comp (value : Z) (x y : Q) :
  x == y -> boundary_neg value x = boundary_neg value y.
Proof. intros E. unfold boundary_neg. apply Qceiling_comp. rewrite E. reflexivity. Qed.

Lemma boundary_neg_0 (value : Z) : boundary_neg value 0 = 0%Z.
Proof.
  unfold boundary_neg. rewrite (Qceiling_comp (inject_Z value * 0) (inject_Z 0)).
  - apply Qceiling_Z.
  - change (inject_Z 0) with 0. ring.
Qed.

Lemma boundary_neg_1 (value : Z) : boundary_neg value 1 = value.
Proof.
  unfold boundary_neg. rewrite (Qceiling_comp (inject_Z value * 1) (inject_Z value)).
  - apply Qceiling_Z.
  - ring.
Qed.

(** On a value that is not positive the share of a segment is the
    difference of its two boundaries with the fractional parts dropped. *)
Lemma Scale_boundary_neg (s : ExecutionSegment) (value : Z) :
  valid s -> int64_range value -> (value <= 0)%Z ->
  Scale (Some s) value =
  (boundary_neg value (to s) - boundary_neg value (from s))%Z.
Proof.
  intros (H0 & Hlt & H1 & _) Hr Hv.
  assert (Hfrom : roundUp (big.Mul (big.NewRat1 value) (from s))
                  = boundary_neg value (from s)).
  { unfold big.Mul, big.NewRat1. fold (inject_Z value).
    pose proof (neg_product_nonpos value (from s) Hv H0).
    rewrite roundUp_nonpos by (rewrite Qred_correct; assumption).
    unfold boundary_neg. apply Qceiling_comp. apply Qred_correct. }
  assert (Hto : big.Sub (big.Mul (big.NewRat1 value) (to s))
                        (big.SetFrac (boundary_neg value (from s)) 1)
                == inject_Z value * to s - inject_Z (boundary_neg value (from s))).
  { unfold big.Sub, big.Mul, big.SetFrac, big.NewRat1.
    fold (inject_Z value). fold (inject_Z (boundary_neg value (from s))).
    rewrite !Qred_correct. reflexivity. }
  unfold Scale. rewrite Hfrom.
  pose proof (neg_product_antitone value _ _ Hv (Qlt_le_weak _ _ Hlt)) as Hord.
  pose proof (Qle_ceiling (inject_Z value * from s)) as Hc.
  fold (boundary_neg value (from s)) in Hc.
  rewrite roundUp_nonpos by (rewrite Hto; lra).
  rewrite (Qceiling_comp _ _ Hto), Qceiling_sub_Z.
  fold (boundary_neg value (to s)).
  apply Int64_small.
  pose proof (boundary_neg_antitone value _ _ Hv H0) as A.
  pose proof (boundary_neg_antitone value _ _ Hv (Qlt_le_weak _ _ Hlt)) as B.
  pose proof (boundary_neg_antitone value _ _ Hv H1) as C.
  rewrite boundary_neg_0 in A. rewrite boundary_neg_1 in C.
  unfold int64_range in *. lia.
Qed.

Lemma Scale_share_boundary (s : ExecutionSegment) (value : Z) :
  valid s -> int64_range value ->
  Scale (Some s) value =
  (share_boundary value (to s) - share_boundary value (from s))%Z.
Proof.
  intros Hs Hr. unfold share_boundary.
  destruct (0 <=? value)%Z eqn:E.
  - apply Z.leb_le in E. apply Scale_boundary; assumption.
  - apply Z.leb_gt in E. apply Scale_boundary_neg; [assumption | assumption | lia].
Qed.

Lemma share_boundary_comp (value : Z) (x y : Q) :
  x == y -> share_boundary value x = share_boundary value y.
Proof.
  intros E. unfold share_boundary.
  destruct (0 <=? value)%Z; [apply boundary_comp | apply boundary_neg_comp]; exact E.
Qed.

Lemma share_boundary_0 (value : Z) : share_boundary value 0 = 0%Z.
Proof.
  unfold share_boundary.
  destruct (0 <=? value)%Z; [apply boundary_0 | apply boundary_neg_0].
Qed.

Lemma share_boundary_1 (value : Z) : share_boundary value 1 = value.
Proof.
  unfold share_boundary.
  destruct (0 <=? value)%Z; [apply boundary_1 | apply boundary_neg_1].
Qed.

Lemma covers_sum_share (value : Z) (l : list ExecutionSegment) :
  int64_range value ->
  forall a b : Q,
    Forall valid l -> covers a l b ->
    sumZ (map (fun s => Scale (Some s) value) l) =
    (share_boundary value b - share_boundary value a)%Z.
Proof.
  intros Hr. induction l as [|s rest IH]; intros a b Hall Hcov.
  - simpl in *. rewrite (share_boundary_comp value a b Hcov). lia.
  - inversion Hall as [|? ? Hs Hrest]; subst.
    destruct Hcov as [Hfrom Hcov].
    change (Scale (Some s) value
            + sumZ (map (fun s => Scale (Some s) value) rest)
            = share_boundary value b - share_boundary value a)%Z.
    rewrite (IH (to s) b Hrest Hcov).
    rewrite (Scale_share_boundary s value Hs Hr).
    rewrite (share_boundary_comp value (from s) a Hfrom). lia.
Qed.

Lemma Scale_opt_share_boundary (es : option ExecutionSegment) (value : Z) :
  valid_or_nil es -> int64_range value ->
  Scale es value =
  (share_boundary value (to_of es) - share_boundary value (from_of es))%Z.
Proof.
  intros Hes Hr. destruct es as [s|].
  - apply Scale_share_boundary; assumption.
  - cbn [Scale to_of from_of]. unfold oneRat, zeroRat.
    change (1 # 1) with 1. change (0 # 1) with 0.
    rewrite share_boundary_0, share_boundary_1. lia.
Qed.

End NegativeValues.

(** X4. The shares add up for a value of either sign: for every int64
    [value], negative ones too, and every partition of (0, 1] into
    valid segments, the sum of [Scale(s_i, value)] is [value]. *)
Theorem Scale_conservation_any_sign (value : Z) (l : list ExecutionSegment) :
  int64_range value -> partition l ->
  sumZ (map (fun s => Scale (Some s) value) l) = value.
Proof.
  intros Hr [Hall Hcov].
  rewrite (covers_sum_share value l Hr 0%Q 1%Q Hall Hcov).
  rewrite share_boundary_0, share_boundary_1. lia.
Qed.

Lemma Scale_conservation_any_sign_witness :
  sumZ (map (fun s => Scale (Some s) (-10))
            [mkSegment (0 # 1) (1 # 3) (1 # 3);
             mkSegment (1 # 3) (2 # 3) (1 # 3);
             mkSegment (2 # 3) (1 # 1) (1 # 3)]) = -10.
Proof.
  apply (Scale_conservation_any_sign (-10)).
  - unfold int64_range. lia.
  - split.
    + repeat constructor; unfold Qle, Qlt, Qeq; simpl; lia.
    + simpl. unfold Qeq. simpl. lia.
Defined.

(** ** Scaling rationals *)

Section RationalShares.

Local Open Scope Q_scope.

Lemma CopyScaleRat_value (es : option ExecutionSegment) (r : Q) :
  CopyScaleRat es r == r * length_of es.
Proof.
  destruct es as [s|]; cbn [CopyScaleRat length_of].
  - apply Qred_correct.
  - unfold oneRat. change (1 # 1) with 1. ring.
Qed.

Lemma InPlaceScaleRat_CopyScaleRat (es : option ExecutionSegment) (r : big.Rat) :
  InPlaceScaleRat es r = (CopyScaleRat es r, CopyScaleRat es r).
Proof. destruct es; reflexivity. Qed.

Lemma covers_sumQ (r : Q) (l : list ExecutionSegment) :
  forall a b : Q,
    Forall valid l -> covers a l b ->
    sumQ (map (fun s => CopyScaleRat (Some s) r) l) == r * (b - a).
Proof.
  induction l as [|s rest IH]; intros a b Hall Hcov.
  - simpl in *. rewrite Hcov. ring.
  - inversion Hall as [|? ? Hs Hrest]; subst.
    destruct Hcov as [Hfrom Hcov].
    change (CopyScaleRat (Some s) r
            + sumQ (map (fun s => CopyScaleRat (Some s) r) rest)
            == r * (b - a)).
    rewrite (IH (to s) b Hrest Hcov).
    rewrite (CopyScaleRat_value (Some s) r). cbn [length_of].
    destruct Hs as (_ & _ & _ & Hlen). rewrite Hlen, Hfrom. ring.
Qed.

End RationalShares.

(** X5. The rational shares add up as well: for every rational [r] and
    every partition of (0, 1] into valid segments, the results of
    [CopyScaleRat] sum to [r], and so do those of [InPlaceScaleRat],
    which returns what it has put in its argument and what
    [CopyScaleRat] returns. *)
Theorem ScaleRat_conservation (r : Q) (l : list ExecutionSegment) :
  partition l ->
  (sumQ (map (fun s => CopyScaleRat (Some s) r) l) == r)%Q /\
  (sumQ (map (fun s => snd (InPlaceScaleRat (Some s) r)) l) == r)%Q /\
  Forall (fun s => InPlaceScaleRat (Some s) r =
                   (CopyScaleRat (Some s) r, CopyScaleRat (Some s) r)) l.
Proof.
  intros [Hall Hcov].
  assert (H : (sumQ (map (fun s => CopyScaleRat (Some s) r) l) == r)%Q).
  { rewrite (covers_sumQ r l 0%Q 1%Q Hall Hcov). ring. }
  split; [exact H|]. split.
  - rewrite (map_ext (fun s => snd (InPlaceScaleRat (Some s) r))
                     (fun s => CopyScaleRat (Some s) r)); [exact H|].
    intros s. rewrite InPlaceScaleRat_CopyScaleRat. reflexivity.
  - apply Forall_forall. intros s _. apply InPlaceScaleRat_CopyScaleRat.
Qed.

Lemma ScaleRat_conservation_witness :
  (sumQ (map (fun s => CopyScaleRat (Some s) (7 # 2))
             [mkSegment (0 # 1) (1 # 3) (1 # 3);
              mkSegment (1 # 3) (1 # 1) (2 # 3)]) == 7 # 2)%Q.
Proof.
  apply (ScaleRat_conservation (7 # 2)
           [mkSegment (0 # 1) (1 # 3) (1 # 3);
            mkSegment (1 # 3) (1 # 1) (2 # 3)]).
  split.
  - repeat constructor; unfold Qle, Qlt, Qeq; simpl; lia.
  - simpl. unfold Qeq. simpl. lia.
Defined.

(** ** More on Split *)

Section SplitParts.

Local Open Scope Q_scope.

Lemma NewExecutionSegment_err_kind (f t : big.Rat) (e : error) :
  NewExecutionSegment f t = Err e ->
  e = ErrStartNegative f \/ e = ErrStartNotBeforeEnd f t \/ e = ErrEndAboveOne t.
Proof.
  unfold NewExecutionSegment.
  destruct (big.Cmp f zeroRat <? 0)%Z; [intros H; injection H as <-; auto|].
  destruct (big.Cmp f t >=? 0)%Z; [intros H; injection H as <-; auto|].
  destruct (big.Cmp t oneRat >? 0)%Z; [intros H; injection H as <-; auto|].
  discriminate.
Qed.

Lemma Split_loop_err (k : nat) :
  forall (f inc : big.Rat) (e : error),
    Split_loop k f inc = Err e -> range_error e.
Proof.
  induction k as [|k IH]; intros f inc e; cbn [Split_loop]; [discriminate|].
  destruct (NewExecutionSegment f (big.Add f inc)) as [sg|e'] eqn:E1.
  - destruct (Split_loop k (big.Add f inc) inc) as [[rest l]|e'] eqn:E2;
      [discriminate|].
    intros H. injection H as <-. exact (IH _ _ _ E2).
  - intros H. injection H as <-.
    destruct (NewExecutionSegment_err_kind _ _ _ E1) as [-> | [-> | ->]]; exact I.
Qed.

(** Where the loop of [Split] puts its parts, whatever the start and
    the step. *)
Lemma Split_loop_nth (k : nat) :
  forall (f inc : Q) (parts : list ExecutionSegment) (last : Q),
    Split_loop k f inc = Ok (parts, last) ->
    List.length parts = k /\
    last == f + inject_Z (Z.of_nat k) * inc /\
    forall (i : nat) (p : ExecutionSegment),
      nth_error parts i = Some p ->
      from p == f + inject_Z (Z.of_nat i) * inc /\
      to p == f + inject_Z (Z.of_nat (S i)) * inc /\
      length p == inc.
Proof.
  induction k as [|k IH]; intros f inc parts last E; cbn [Split_loop] in E.
  - injection E as <- <-. split; [reflexivity|]. split.
    + change (inject_Z (Z.of_nat 0)) with 0. ring.
    + intros i p H. destruct i; discriminate H.
  - destruct (NewExecutionSegment f (big.Add f inc)) as [sg|e] eqn:E1;
      [|discriminate].
    destruct (Split_loop k (big.Add f inc) inc) as [[rest l]|e] eqn:E2;
      [|discriminate].
    injection E as <- <-.
    apply NewExecutionSegment_inv in E1. destruct E1 as (_ & _ & _ & ->).
    destruct (IH _ _ _ _ E2) as (Hlen & Hlast & Hnth).
    assert (Hadd : big.Add f inc == f + inc) by apply Qred_correct.
    split; [cbn [List.length]; f_equal; exact Hlen|]. split.
    + rewrite Hlast, Hadd, inject_Z_succ. ring.
    + intros [|i] p H; cbn [nth_error] in H.
      * injection H as <-. cbn [from to length].
        change (inject_Z (Z.of_nat 0)) with 0.
        change (inject_Z (Z.of_nat 1)) with 1.
        unfold big.Sub. rewrite Qred_correct, Hadd.
        repeat split; ring.
      * destruct (Hnth i p H) as (Hf & Ht & Hl).
        rewrite Hf, Ht, Hadd, !inject_Z_succ. repeat split; [ring | ring | exact Hl].
Qed.

Lemma Split_inv (es : option ExecutionSegment) (numParts : Z)
      (parts : list ExecutionSegment) :
  Split es numParts = Ok parts ->
  (1 <= numParts)%Z /\
  List.length parts = Z.to_nat numParts /\
  forall (i : nat) (p : ExecutionSegment),
    nth_error parts i = Some p ->
    from p == from_of es
              + inject_Z (Z.of_nat i) * ((to_of es - from_of es) / inject_Z numParts) /\
    to p == from_of es
            + inject_Z (Z.of_nat (S i)) * ((to_of es - from_of es) / inject_Z numParts) /\
    length p == (to_of es - from_of es) / inject_Z numParts.
Proof.
  rewrite Split_unfold.
  destruct (numParts <? 1)%Z eqn:En; [discriminate|].
  apply Z.ltb_ge in En.
  destruct (Split_loop _ _ _) as [[results last]|e] eqn:E; [|discriminate].
  destruct (negb _); [discriminate|].
  intros H. injection H as <-.
  destruct (Split_loop_nth _ _ _ _ _ E) as (Hlen & _ & Hnth).
  assert (Hinc : big.MulDenom (big.Sub (to_of es) (from_of es)) (Z.to_pos numParts)
                 == (to_of es - from_of es) / inject_Z numParts).
  { rewrite MulDenom_value. unfold big.Sub.
    rewrite Qred_correct. rewrite Z2Pos.id by lia. reflexivity. }
  split; [exact En|]. split; [exact Hlen|].
  intros i p Hp. destruct (Hnth i p Hp) as (Hf & Ht & Hl).
  rewrite Hf, Ht, Hl, Hinc. repeat split; reflexivity.
Qed.

Lemma Split_not_ErrNotEqual (es : option ExecutionSegment) (numParts : Z)
      (e : error) :
  Split es numParts = Err e -> e = ErrNumParts numParts \/ range_error e.
Proof.
  rewrite Split_unfold.
  destruct (numParts <? 1)%Z eqn:En; [intros H; injection H as <-; auto|].
  apply Z.ltb_ge in En.
  destruct (Split_loop _ _ _) as [[results last]|e'] eqn:E.
  - destruct (Split_loop_nth _ _ _ _ _ E) as (_ & Hlast & _).
    assert (Hend : last == to_of es).
    { rewrite Hlast, MulDenom_value. unfold big.Sub.
      rewrite Qred_correct, Z2Nat.id, Z2Pos.id by lia.
      assert (Hn : ~ inject_Z numParts == 0).
      { intros C. assert (0 < inject_Z numParts).
        { change 0 with (inject_Z 0). rewrite <- Zlt_Qlt. lia. }
        lra. }
      field. exact Hn. }
    apply Cmp_zero_iff in Hend. rewrite Hend. discriminate.
  - intros H. injection H as <-. right. exact (Split_loop_err _ _ _ _ E).
Qed.

End SplitParts.

(** X6. Splitting keeps the integer shares together: on a valid or nil
    segment and [numParts >= 1], the shares [Scale] gives the parts of
    [Split] add up to the share it gives the segment itself, for every
    int64 value. *)
Theorem Split_Scale (es : option ExecutionSegment) (numParts value : Z) :
  valid_or_nil es -> 1 <= numParts -> int64_range value ->
  exists parts,
    Split es numParts = Ok parts /\
    sumZ (map (fun s => Scale (Some s) value) parts) = Scale es value.
Proof.
  intros Hes Hn Hr.
  destruct (Split_ok es numParts Hes Hn) as (parts & E & _ & Hcov & Hval & _).
  exists parts. split; [exact E|].
  rewrite (covers_sum_share value parts Hr _ _ Hval Hcov).
  rewrite (Scale_opt_share_boundary es value Hes Hr). reflexivity.
Qed.

Lemma Split_Scale_witness :
  exists parts,
    Split (Some (mkSegment (1 # 2) (1 # 1) (1 # 2))) 3 = Ok parts /\
    sumZ (map (fun s => Scale (Some s) 10) parts)
    = Scale (Some (mkSegment (1 # 2) (1 # 1) (1 # 2))) 10.
Proof.
  apply (Split_Scale (Some (mkSegment (1 # 2) (1 # 1) (1 # 2))) 3 10).
  - unfold valid_or_nil, valid, Qle, Qlt, Qeq. simpl. lia.
  - lia.
  - unfold int64_range. lia.
Defined.

(** X7. Whenever [Split] succeeds, on any receiver, [numParts] is at
    least 1, there are [numParts] parts, and part [i] (from 0) runs from
    [from + i * (to - from) / numParts] to
    [from + (i + 1) * (to - from) / numParts], with that step as its
    [length]. *)
Theorem Split_positions (es : option ExecutionSegment) (numParts : Z)
        (parts : list ExecutionSegment) :
  Split es numParts = Ok parts ->
  1 <= numParts /\
  List.length parts = Z.to_nat numParts /\
  forall (i : nat) (p : ExecutionSegment),
    nth_error parts i = Some p ->
    (from p == from_of es
               + inject_Z (Z.of_nat i)
                 * ((to_of es - from_of es) / inject_Z numParts))%Q /\
    (to p == from_of es
             + inject_Z (Z.of_nat (S i))
               * ((to_of es - from_of es) / inject_Z numParts))%Q /\
    (length p == (to_of es - from_of es) / inject_Z numParts)%Q.
Proof.
  exact (Split_inv es numParts parts).
Qed.

Lemma Split_positions_witness :
  1 <= 4 /\
  List.length
    [mkSegment (1 # 2) (5 # 8) (1 # 8); mkSegment (5 # 8) (3 # 4) (1 # 8);
     mkSegment (3 # 4) (7 # 8) (1 # 8); mkSegment (7 # 8) (1 # 1) (1 # 8)]
  = Z.to_nat 4 /\
  forall (i : nat) (p : ExecutionSegment),
    nth_error
      [mkSegment (1 # 2) (5 # 8) (1 # 8); mkSegment (5 # 8) (3 # 4) (1 # 8);
       mkSegment (3 # 4) (7 # 8) (1 # 8); mkSegment (7 # 8) (1 # 1) (1 # 8)]
      i = Some p ->
    (from p == (1 # 2)
               + inject_Z (Z.of_nat i) * (((1 # 1) - (1 # 2)) / inject_Z 4))%Q /\
    (to p == (1 # 2)
             + inject_Z (Z.of_nat (S i)) * (((1 # 1) - (1 # 2)) / inject_Z 4))%Q /\
    (length p == ((1 # 1) - (1 # 2)) / inject_Z 4)%Q.
Proof.
  apply (Split_positions (Some (mkSegment (1 # 2) (1 # 1) (1 # 2))) 4).
  reflexivity.
Defined.

(** X8. [Split] never reports that the last boundary missed [to]: on
    every receiver, valid or not, its error is the one for
    [numParts < 1], returned exactly when [numParts < 1], or a range
    error of [NewExecutionSegment]. *)
Theorem Split_errors (es : option ExecutionSegment) (numParts : Z) :
  (forall x y : big.Rat, Split es numParts <> Err (ErrNotEqual x y)) /\
  (Split es numParts = Err (ErrNumParts numParts) <-> numParts < 1) /\
  match Split es numParts with
  | Err e => e = ErrNumParts numParts \/ range_error e
  | Ok _ => True
  end.
Proof.
  split; [|split].
  - intros x y E.
    destruct (Split_not_ErrNotEqual es numParts _ E) as [H | H];
      [discriminate H | exact H].
  - rewrite Split_unfold. destruct (numParts <? 1) eqn:En.
    + apply Z.ltb_lt in En. split; [intros _; exact En | reflexivity].
    + apply Z.ltb_ge in En. split; [|lia].
      destruct (Split_loop _ _ _) as [[results last]|e] eqn:E.
      * destruct (negb _); discriminate.
      * intros H. injection H as ->.
        exfalso. exact (Split_loop_err _ _ _ _ E).
  - destruct (Split es numParts) as [parts|e] eqn:E; [exact I|].
    exact (Split_not_ErrNotEqual es numParts e E).
Qed.

Section SplitAsSubSegments.

Local Open Scope Q_scope.

Lemma length_of_valid (es : option ExecutionSegment) :
  valid_or_nil es -> length_of es == to_of es - from_of es.
Proof.
  destruct es as [s|]; simpl.
  - intros (_ & _ & _ & H). exact H.
  - intros _. reflexivity.
Qed.

Lemma SubSegment_bounds (parent : option ExecutionSegment) (c : ExecutionSegment) :
  from_of (SubSegment parent (Some c))
    == from_of parent + length_of parent * from c /\
  length_of (SubSegment parent (Some c)) == length_of parent * length c /\
  to_of (SubSegment parent (Some c))
    == from_of parent + length_of parent * from c + length_of parent * length c.
Proof.
  rewrite SubSegment_some. cbn [from_of to_of length_of from to length].
  unfold big.Add, big.Mul. rewrite !Qred_correct.
  repeat split; ring.
Qed.

End SplitAsSubSegments.

(** X9. Splitting a segment is splitting the whole and taking the
    sub-segments: on a valid or nil segment, part [i] of [Split] is
    [Equal] to the [SubSegment] of the segment by part [i] of the same
    split of the nil segment, and has the same [length]. *)
Theorem Split_SubSegment (es : option ExecutionSegment) (numParts : Z)
        (parts units : list ExecutionSegment) (i : nat) (p u : ExecutionSegment) :
  valid_or_nil es ->
  Split es numParts = Ok parts -> Split None numParts = Ok units ->
  nth_error parts i = Some p -> nth_error units i = Some u ->
  Equal (Some p) (SubSegment es (Some u)) = true /\
  (length p == length_of (SubSegment es (Some u)))%Q.
Proof.
  intros Hes Ep Eu Hp Hu.
  destruct (Split_inv es numParts parts Ep) as (Hn & _ & Hparts).
  destruct (Split_inv None numParts units Eu) as (_ & _ & Hunits).
  destruct (Hparts i p Hp) as (Pf & Pt & Pl).
  destruct (Hunits i u Hu) as (Uf & _ & Ul).
  cbn [from_of to_of] in Uf, Ul. unfold zeroRat, oneRat in Uf, Ul.
  destruct (SubSegment_bounds es u) as (Rf & Rl & Rt).
  pose proof (length_of_valid es Hes) as Hl.
  assert (Hnz : ~ (inject_Z numParts == 0)%Q).
  { intros C. assert (0 < inject_Z numParts)%Q.
    { change 0%Q with (inject_Z 0). rewrite <- Zlt_Qlt. lia. }
    lra. }
  split.
  - apply Equal_iff.
    change (from_of (Some p)) with (from p). change (to_of (Some p)) with (to p).
    rewrite Rf, Rt, Pf, Pt, Uf, Ul, Hl, inject_Z_succ. split; field; exact Hnz.
  - rewrite Rl, Pl, Ul, Hl. field. exact Hnz.
Qed.

Lemma Split_SubSegment_witness :
  Equal (Some (mkSegment (2 # 3) (5 # 6) (1 # 6)))
        (SubSegment (Some (mkSegment (1 # 2) (1 # 1) (1 # 2)))
                    (Some (mkSegment (1 # 3) (2 # 3) (1 # 3)))) = true /\
  (1 # 6 == length_of (SubSegment (Some (mkSegment (1 # 2) (1 # 1) (1 # 2)))
                                  (Some (mkSegment (1 # 3) (2 # 3) (1 # 3)))))%Q.
Proof.
  apply (Split_SubSegment (Some (mkSegment (1 # 2) (1 # 1) (1 # 2))) 3
           [mkSegment (1 # 2) (2 # 3) (1 # 6);
            mkSegment (2 # 3) (5 # 6) (1 # 6);
            mkSegment (5 # 6) (1 # 1) (1 # 6)]
           [mkSegment (0 # 1) (1 # 3) (1 # 3);
            mkSegment (1 # 3) (2 # 3) (1 # 3);
            mkSegment (2 # 3) (1 # 1) (1 # 3)]
           1
           (mkSegment (2 # 3) (5 # 6) (1 # 6))
           (mkSegment (1 # 3) (2 # 3) (1 # 3))).
  - unfold valid_or_nil, valid, Qle, Qlt, Qeq. simpl. lia.
  - reflexivity.
  - reflexivity.
  - reflexivity.
  - reflexivity.
Defined.

(** ** More on SubSegment *)

Section SubSegmentAlgebra.

Local Open Scope Q_scope.

Lemma SubSegment_result (parent : option ExecutionSegment) (c : ExecutionSegment) :
  exists r,
    SubSegment parent (Some c) = Some r /\
    from r == from_of parent + length_of parent * from c /\
    length r == length_of parent * length c /\
    to r == from_of parent + length_of parent * from c
            + length_of parent * length c.
Proof.
  destruct (SubSegment_bounds parent c) as (Hf & Hl & Ht).
  rewrite SubSegment_some in *. eexists. split; [reflexivity|].
  cbn [from_of to_of length_of] in Hf, Hl, Ht. auto.
Qed.

Lemma SubSegment_assoc_some (a : option ExecutionSegment) (b c : ExecutionSegment) :
  Equal (SubSegment (SubSegment a (Some b)) (Some c))
        (SubSegment a (SubSegment (Some b) (Some c))) = true /\
  length_of (SubSegment (SubSegment a (Some b)) (Some c))
  == length_of (SubSegment a (SubSegment (Some b) (Some c))).
Proof.
  destruct (SubSegment_result a b) as (y & Ey & Yf & Yl & _).
  destruct (SubSegment_result (Some b) c) as (z & Ez & Zf & Zl & _).
  rewrite Ey, Ez.
  destruct (SubSegment_result (Some y) c) as (l & El & Lf & Ll & Lt).
  destruct (SubSegment_result a z) as (r & Er & Rf & Rl & Rt).
  rewrite El, Er. cbn [from_of length_of] in *.
  split.
  - apply Equal_iff. cbn [from_of to_of].
    rewrite Lf, Lt, Rf, Rt, Yf, Yl, Zf, Zl. split; ring.
  - cbn [length_of]. rewrite Ll, Rl, Yl, Zl. ring.
Qed.

Lemma SubSegment_assoc_nil (a : option ExecutionSegment) (c : ExecutionSegment) :
  Equal (SubSegment a (Some c)) (SubSegment a (SubSegment None (Some c))) = true /\
  length_of (SubSegment a (Some c))
  == length_of (SubSegment a (SubSegment None (Some c))).
Proof.
  destruct (SubSegment_result None c) as (z & Ez & Zf & Zl & _).
  rewrite Ez.
  destruct (SubSegment_result a c) as (l & El & Lf & Ll & Lt).
  destruct (SubSegment_result a z) as (r & Er & Rf & Rl & Rt).
  rewrite El, Er. cbn [from_of length_of] in *. unfold zeroRat, oneRat in *.
  split.
  - apply Equal_iff. cbn [from_of to_of].
    rewrite Lf, Lt, Rf, Rt, Zf, Zl. split; ring.
  - cbn [length_of]. rewrite Ll, Rl, Zl. ring.
Qed.

Lemma Equal_refl (a : option ExecutionSegment) : Equal a a = true.
Proof. apply Equal_iff. split; reflexivity. Qed.

End SubSegmentAlgebra.

(** X10. Sub-segments compose: taking [c] within [b] within [a] gives a
    segment [Equal] to, and as long as, taking within [a] the
    sub-segment [c] of [b], whichever of the three are nil and whether
    or not they are valid. *)
Theorem SubSegment_assoc (a b c : option ExecutionSegment) :
  Equal (SubSegment (SubSegment a b) c) (SubSegment a (SubSegment b c)) = true /\
  (length_of (SubSegment (SubSegment a b) c)
   == length_of (SubSegment a (SubSegment b c)))%Q.
Proof.
  destruct c as [c|].
  - destruct b as [b|].
    + exact (SubSegment_assoc_some a b c).
    + exact (SubSegment_assoc_nil a c).
  - cbn [SubSegment]. split; [apply Equal_refl | reflexivity].
Qed.

(** X11. A sub-segment stays inside its parent, and the full segment is
    neutral: for a parent that is valid or nil and a valid child, the
    result starts no earlier and ends no later than the parent; it is
    [Equal] to the parent when the child has the bounds 0 and 1, and
    [Equal] to the child when the parent is nil. *)
Theorem SubSegment_within (parent : option ExecutionSegment) (c : ExecutionSegment) :
  valid_or_nil parent -> valid c ->
  (from_of parent <= from_of (SubSegment parent (Some c)))%Q /\
  (to_of (SubSegment parent (Some c)) <= to_of parent)%Q /\
  (Equal (Some c) None = true ->
   Equal (SubSegment parent (Some c)) parent = true) /\
  Equal (SubSegment None (Some c)) (Some c) = true.
Proof.
  intros Hp (C0 & Clt & C1 & Clen).
  destruct (SubSegment_bounds parent c) as (Rf & _ & Rt).
  destruct (SubSegment_bounds None c) as (Nf & _ & Nt).
  pose proof (length_of_valid parent Hp) as Hl.
  apply from_length_of_valid in Hp. destruct Hp as (P0 & Plen & P1).
  assert (A : (0 <= length_of parent * from c)%Q)
    by (apply Qmult_le_0_compat; lra).
  assert (B : (length_of parent * (from c + length c) <= length_of parent * 1)%Q).
  { rewrite !(Qmult_comm (length_of parent)).
    apply Qmult_le_compat_r; [rewrite Clen|]; lra. }
  split; [rewrite Rf; lra|]. split; [rewrite Rt; lra|]. split.
  - intros E. apply Equal_iff in E. cbn [from_of to_of] in E.
    unfold zeroRat, oneRat in E. destruct E as [Ef Et].
    apply Equal_iff. rewrite Rf, Rt, Clen, Ef, Et. split; [ring|].
    rewrite Hl. change (1 # 1)%Q with 1%Q. change (0 # 1)%Q with 0%Q. ring.
  - apply Equal_iff. rewrite Nf, Nt. cbn [from_of to_of length_of].
    unfold zeroRat, oneRat. rewrite Clen.
    change (1 # 1)%Q with 1%Q. change (0 # 1)%Q with 0%Q. split; ring.
Qed.

Lemma SubSegment_within_witness :
  ((1 # 2) <= from_of (SubSegment (Some (mkSegment (1 # 2) (1 # 1) (1 # 2)))
                                  (Some (mkSegment (0 # 1) (1 # 2) (1 # 2)))))%Q /\
  (to_of (SubSegment (Some (mkSegment (1 # 2) (1 # 1) (1 # 2)))
                     (Some (mkSegment (0 # 1) (1 # 2) (1 # 2)))) <= 1 # 1)%Q.
Proof.
  destruct (SubSegment_within (Some (mkSegment (1 # 2) (1 # 1) (1 # 2)))
                              (mkSegment (0 # 1) (1 # 2) (1 # 2)))
    as (H1 & H2 & _).
  - unfold valid_or_nil, valid, Qle, Qlt, Qeq. simpl. lia.
  - unfold valid, Qle, Qlt, Qeq. simpl. lia.
  - split; [exact H1 | exact H2].
Defined.

(** ** More on the text form *)

Section TextForms.

Local Open Scope string_scope.

Lemma length_app_byte (a : string) (c : ascii) :
  String.length (a ++ String c "") = S (String.length a).
Proof. induction a as [|x a IH]; simpl; [reflexivity|]. rewrite IH. reflexivity. Qed.

Lemma substring_last_byte (a : string) (c : ascii) :
  substring (String.length a) 1 (a ++ String c "") = String c "".
Proof. induction a as [|x a IH]; simpl; [reflexivity | exact IH]. Qed.

Lemma HasSuffix_app_byte (a : string) (c : ascii) :
  strings.HasSuffix (a ++ String c "") (String c "") = true.
Proof.
  unfold strings.HasSuffix. rewrite length_app_byte.
  cbn [String.length Nat.leb Nat.sub]. rewrite Nat.sub_0_r.
  rewrite substring_last_byte. apply String.eqb_refl.
Qed.

Lemma TrimSuffix_app_byte (a : string) (c : ascii) :
  strings.TrimSuffix (a ++ String c "") (String c "") = a.
Proof.
  unfold strings.TrimSuffix. rewrite HasSuffix_app_byte, length_app_byte.
  cbn [String.length Nat.sub]. rewrite Nat.sub_0_r.
  apply substring_app_left.
Qed.

Lemma SplitN2_zero_colon (text : string) :
  strings.SplitN2 ("0:" ++ text) ":" = ["0"; text].
Proof.
  unfold strings.SplitN2.
  change (strings.IndexByte ("0:" ++ text) ":") with (Some 1%nat).
  cbv beta iota.
  change (substring 0 1 ("0:" ++ text)) with "0".
  change (substring 2 (String.length ("0:" ++ text) - 2) ("0:" ++ text))
    with (substring 0 (String.length text - 0) text).
  rewrite Nat.sub_0_r, substring_all. reflexivity.
Qed.

Lemma UnmarshalText_String_opt (es : ExecutionSegment)
      (a : option ExecutionSegment) :
  valid_or_nil a ->
  exists parsed,
    UnmarshalText es (String_ a) = (parsed, None) /\
    (from parsed == from_of a)%Q /\ (to parsed == to_of a)%Q.
Proof.
  destruct a as [s|]; intros Ha.
  - eexists. split; [apply (UnmarshalText_String es s Ha)|].
    cbn [from to from_of to_of]. split; apply Qred_correct.
  - exists (mkSegment (0 # 1) (1 # 1) (1 # 1)). repeat split.
Qed.

Lemma normalized_eq (x y : Q) :
  normalized x -> normalized y -> (x == y)%Q -> x = y.
Proof.
  unfold normalized. intros Hx Hy E.
  rewrite <- Hx, <- Hy. apply Qred_complete. exact E.
Qed.

End TextForms.

(** X12. A text without a colon is read as the segment that starts at
    0: [UnmarshalText] gives for it the same receiver and the same
    error, if any, as for the text with [0:] put before it. *)
Theorem UnmarshalText_shorthand (es : ExecutionSegment) (text : string) :
  strings.ContainsRune text ":" = false ->
  UnmarshalText es text = UnmarshalText es ("0:" ++ text)%string.
Proof.
  intros H. unfold UnmarshalText. rewrite H.
  rewrite (SplitN2_zero_colon text).
  change (strings.ContainsRune ("0:" ++ text) ":") with true.
  cbn [nth].
  change (stringToRat "0") with (@Ok big.Rat zeroRat).
  reflexivity.
Qed.

Lemma UnmarshalText_shorthand_witness :
  UnmarshalText (mkSegment (0 # 1) (1 # 1) (1 # 1)) "20%"
  = UnmarshalText (mkSegment (0 # 1) (1 # 1) (1 # 1)) ("0:" ++ "20%")%string.
Proof.
  apply (UnmarshalText_shorthand (mkSegment (0 # 1) (1 # 1) (1 # 1)) "20%").
  reflexivity.
Defined.

(** X13. A text that ends in [%] is read as a percentage or not at all:
    the decimal text of an integer [z] followed by [%] gives [z / 100],
    and any text ending in [%] either gives [k / 100] for an integer
    [k] or is rejected as not a valid percentage, so [0.5%] is
    rejected although [0.5] is a value. *)
Theorem stringToRat_percent :
  (forall z : Z,
      stringToRat (bigtext.Int_String z ++ "%") = Ok (big.SetFrac z 100)) /\
  (forall s : string,
      strings.HasSuffix s "%" = true ->
      stringToRat s = Err (ErrNotPercentage s) \/
      exists k : Z, stringToRat s = Ok (big.SetFrac k 100)) /\
  stringToRat "0.5%" = Err (ErrNotPercentage "0.5%") /\
  stringToRat "0.5" = Ok (1 # 2).
Proof.
  split; [|split; [|split; reflexivity]].
  - intros z. unfold stringToRat.
    rewrite HasSuffix_app_byte, TrimSuffix_app_byte, Int_SetString_String.
    reflexivity.
  - intros s H. unfold stringToRat. rewrite H.
    destruct (bigtext.Int_SetString (strings.TrimSuffix s "%")) as [num|].
    + right. exists num. reflexivity.
    + left. reflexivity.
Qed.

Lemma stringToRat_percent_witness :
  stringToRat "abc%" = Err (ErrNotPercentage "abc%") \/
  exists k : Z, stringToRat "abc%" = Ok (big.SetFrac k 100).
Proof.
  apply (proj1 (proj2 stringToRat_percent) "abc%"%string).
  reflexivity.
Defined.

(** X14. The text tells the segments apart: two segments, valid or nil,
    with the same [String()] are [Equal]; and two [Equal] segments whose
    bounds are in lowest terms have the same [String()]. *)
Theorem String_determines_segment (a b : option ExecutionSegment) :
  valid_or_nil a -> valid_or_nil b ->
  (String_ a = String_ b -> Equal a b = true) /\
  (normalized (from_of a) -> normalized (to_of a) ->
   normalized (from_of b) -> normalized (to_of b) ->
   Equal a b = true -> String_ a = String_ b).
Proof.
  intros Ha Hb. split.
  - intros E.
    destruct (UnmarshalText_String_opt (mkSegment (0 # 1) (1 # 1) (1 # 1)) a Ha)
      as (pa & Ea & Fa & Ta).
    destruct (UnmarshalText_String_opt (mkSegment (0 # 1) (1 # 1) (1 # 1)) b Hb)
      as (pb & Eb & Fb & Tb).
    rewrite E, Eb in Ea. injection Ea as <-.
    apply Equal_iff. split.
    + rewrite <- Fa. exact Fb.
    + rewrite <- Ta. exact Tb.
  - intros Nfa Nta Nfb Ntb E. apply Equal_iff in E. destruct E as [Ef Et].
    assert (Hs : forall x : option ExecutionSegment,
               String_ x =
               (bigtext.RatString (from_of x) ++ ":"
                ++ bigtext.RatString (to_of x))%string).
    { intros [x|]; reflexivity. }
    rewrite (Hs a), (Hs b).
    rewrite (normalized_eq _ _ Nfa Nfb Ef), (normalized_eq _ _ Nta Ntb Et).
    reflexivity.
Qed.

Lemma String_determines_segment_witness :
  Equal (Some (mkSegment (0 # 1) (1 # 1) (1 # 1))) None = true.
Proof.
  apply (String_determines_segment (Some (mkSegment (0 # 1) (1 # 1) (1 # 1))) None).
  - unfold valid_or_nil, valid, Qle, Qlt, Qeq. simpl. lia.
  - exact I.
  - reflexivity.
Defined.

(** X15. What [roundUp] does with every rational: from zero upwards it
    goes to the nearest integer, a half going up; below zero it drops
    the fractional part, so that -7/4 becomes -1.  In both cases the
    result is above [q - 1/2] and below [q + 1]. *)
Theorem roundUp_spec (q : big.Rat) :
  roundUp q = (if Qle_bool 0 q then Qfloor (q + (1 # 2)) else Qceiling q) /\
  (q - (1 # 2) < inject_Z (roundUp q) < q + 1)%Q.
Proof.
  assert (H : roundUp q =
              if Qle_bool 0 q then Qfloor (q + (1 # 2)) else Qceiling q).
  { destruct (Qle_bool 0 q) eqn:E.
    - apply Qle_bool_iff in E. apply roundUp_floor. lra.
    - apply roundUp_ceiling. apply Qnot_le_lt. intros C.
      apply Qle_bool_iff in C. congruence. }
  split; [exact H|]. rewrite H.
  destruct (Qle_bool 0 q) eqn:E.
  - pose proof (Qfloor_le (q + (1 # 2))) as A.
    pose proof (Qlt_floor (q + (1 # 2))) as B.
    rewrite inject_Z_plus in B. change (inject_Z 1) with 1%Q in B. lra.
  - assert (Hq : (q < 0)%Q).
    { apply Qnot_le_lt. intros C. apply Qle_bool_iff in C. congruence. }
    pose proof (Qle_ceiling q) as A.
    pose proof (Qceiling_lt q) as B.
    unfold Z.sub in B. rewrite inject_Z_plus in B.
    change (inject_Z (- (1))) with (- (1))%Q in B.
    lra.
Qed.

(** X16. The rationals kept in segments are in lowest terms: the three
    fields of the segment stored by [UnmarshalText] and of the result
    of [SubSegment] with a child always are, and so are those of every
    part returned by [Split] as soon as the [from] of its receiver is. *)
Theorem segments_in_lowest_terms :
  (forall es text s, UnmarshalText es text = (s, None) -> normalized_segment s) /\
  (forall parent child r,
      SubSegment parent (Some child) = Some r -> normalized_segment r) /\
  (forall es numParts parts,
      normalized (from_of es) -> Split es numParts = Ok parts ->
      Forall normalized_segment parts).
Proof.
  split; [exact UnmarshalText_normalized|].
  split; [exact SubSegment_normalized | exact Split_normalized].
Qed.

Lemma segments_in_lowest_terms_witness :
  normalized_segment (mkSegment (1 # 2) (3 # 4) (1 # 4)).
Proof.
  apply (proj1 segments_in_lowest_terms
           (mkSegment (0 # 1) (1 # 1) (1 # 1)) "2/4:75%"%string).
  reflexivity.
Defined.
